(** * Metaquest: the combat engine's state machine, target resolution and
    rewards, embedded from [include/metaquest/game.h] and the simple
    rule sets.

  Conventions of the embedding.
  - The numeric type of the rule sets is [long]; values are mathematical
    integers [Z].  Where the rule set computes in a fixed width the
    wrap-around is written out: the points of a level in [long], the dice
    in [int], the division of [doVictory] in the unsigned 64-bit type.
    Signed overflow is undefined behaviour in the source; the theorems
    about these functions assume ranges in which nothing overflows.
  - A [character *] into the game's storage is a handle [(pi, ci)]: party
    index and position in that party.  Two handles are the same pointer iff
    they are equal.
  - The headers [metaquest/object.h], [character.h], [party.h], [action.h]
    and [resource.h] are not among the files embedded here; what the engine
    needs of them is modelled from the specification and marked as such. *)

From Stdlib Require Import ZArith.
From stdpp Require Import gmap strings list fin_maps pretty.

Open Scope Z_scope.

(** The line feed that ends the engine's messages. *)
Definition newline : string :=
  String (Ascii.Ascii false true false true false false false false) EmptyString.

(* ===================================================================== *)
(** ** metaquest::object<long> *)
(* ===================================================================== *)

Module Object.

(** A function attribute receives the object and reads it through
    [operator[]]; the closure is given that lookup. *)
Abbreviation attrfun := ((string → Z) → Z).

(** The name, in the form [name.display()] prints it, and the two public
    maps the rule sets assign to: [attribute["Experience"] = 0],
    [function["HP/Total"] = getHPTotal]. *)
Record object : Type := mk {
  name : string;
  attribute : gmap string Z;
  function : gmap string attrfun
}.

(** Modelled from the spec: the stored value of a key, "or a default
    (commonly 0)". *)
Definition stored (o : object) (k : string) : Z :=
  default 0 (attribute o !! k).

(** Lookup with a bound on the nesting of function attributes. *)
Fixpoint get_fuel (n : nat) (o : object) (k : string) : Z :=
  match function o !! k with
  | Some f =>
      match n with
      | O => 0
      | S n' => f (get_fuel n' o)
      end
  | None => stored o k
  end.

(** Modelled from the spec: [get(key)] of [object.h] (the source's
    [operator[]]), "if a function attribute exists for the key, evaluate
    it; else return the stored value or a default".  Function attributes
    may read other attributes; without a cycle the nesting is at most the
    number of function attributes, which is the fuel given here. *)
Definition get (o : object) (k : string) : Z :=
  get_fuel (S (size (function o))) o k.

(** Modelled from the spec: [set(key, value)] of [object.h]. *)
Definition set (o : object) (k : string) (v : Z) : object :=
  mk (name o) (<[k := v]> (attribute o)) (function o).

(** Modelled from the spec: [add(key, delta)] of [object.h],
    "stored[key] += delta (creating at default if absent)". *)
Definition add (o : object) (k : string) (delta : Z) : object :=
  set o k (stored o k + delta).

(** [clamp(v, lo, hi)] as [std::clamp] computes it. *)
Definition clamp (v lo hi : Z) : Z :=
  if v <? lo then lo else if hi <? v then hi else v.

(** Modelled from the spec: [add(key, capKey, delta)] of [object.h],
    "stored[key] = clamp(stored[key] + delta, 0, get(capKey))". *)
Definition add_capped (o : object) (k cap : string) (delta : Z) : object :=
  set o k (clamp (stored o k + delta) 0 (get o cap)).

End Object.

Abbreviation object := Object.object.

(* ===================================================================== *)
(** ** metaquest::action<long>, metaquest::resource::cost<long> *)
(* ===================================================================== *)

(** Pointer to a character held by the game: party index, position. *)
Definition ref : Type := nat * nat.

Module Resource.

(** [resource::cost<long>(2, "MP")]: an amount and the attribute it is
    taken from. *)
Record cost : Type := mk { amount : Z; resource : string }.

End Resource.

Module Action.

(** [enum scope] of [metaquest::action], in the order game.h switches on. *)
Inductive scope : Type := self | ally | party | enemy | enemies | everyone.

(** [enum filter] of [metaquest::action]. *)
Inductive filter : Type :=
  none | onlyHealthy | onlyAlive | onlyUnhealthy | onlyDead | onlyUndefeated.

(** The objects an effect function can reach, by pointer. *)
Abbreviation heap := (gmap ref object).

(** [std::string f(objects<long> &source, objects<long> &target)]: the
    effect mutates the pointed-to objects and returns a description. *)
Definition effect : Type := list ref → list ref → heap → heap * string.

(** What [bind(name, visible, apply, scope, filter, cost)] registers. *)
Record descriptor : Type := mk {
  visible : bool;
  apply : effect;
  dscope : scope;
  dfilter : filter;
  cost : list Resource.cost
}.

End Action.

(* ===================================================================== *)
(** ** metaquest::item, metaquest::character, metaquest::party *)
(* ===================================================================== *)

(** [metaquest::item<long>]: an object with a name that takes up slots. *)
Record item : Type := mkItem {
  item_name : list string;
  usedSlots : gmap string Z;
  item_object : object
}.

Module Character.

(** A character is an object with equipment and bound actions, the
    latter in binding order. *)
Record character : Type := mk {
  base : object;
  equipment : list item;
  actions : list (string * Action.descriptor)
}.

Definition name (c : character) : string := Object.name (base c).

Definition get (c : character) (k : string) : Z := Object.get (base c) k.

(** Modelled from the spec: [alive()] of [character.h],
    "alive (HP/Current > 0)". *)
Definition alive (c : character) : bool := 0 <? get c "HP/Current".

(** Modelled from the spec: [able()] of [character.h], "alive and not
    otherwise incapacitated"; the rule sets have no other incapacitation. *)
Definition able (c : character) : bool := alive c.

(** The descriptor bound to an action name, if any. *)
Definition lookup (c : character) (s : string) : option Action.descriptor :=
  (λ hit : nat * (string * Action.descriptor), hit.2.2)
    <$> list_find (λ b : string * Action.descriptor, b.1 = s) (actions c).

(** [c.add("Experience", xp)]. *)
Definition add (c : character) (k : string) (delta : Z) : character :=
  mk (Object.add (base c) k delta) (equipment c) (actions c).

End Character.

Abbreviation character := Character.character.

Module Party.

(** [metaquest::party<character>]: the members in order, and the shared
    inventory. *)
Record party : Type := mk {
  members : list character;
  inventory : list item
}.

(** Modelled from the spec: [defeated()] of [party.h], "defeated holds iff
    every member is not alive". *)
Definition defeated (p : party) : bool :=
  forallb (λ c, negb (Character.alive c)) (members p).

End Party.

Abbreviation party := Party.party.

(* ===================================================================== *)
(** ** metaquest::game::base *)
(* ===================================================================== *)

Module Game.

(** [enum state] of game.h. *)
Inductive state : Type := menu | combat | victory | defeat | exit.

(** The members of [game::base] the engine reads and writes: the parties,
    the object's own attributes ([attribute["parties"]]) and the exit
    flag.  There is no member for the phase or for a turn queue. *)
Record game : Type := mk {
  parties : list party;
  attribute : gmap string Z;
  willExit : bool
}.

Definition with_parties (ps : list party) (g : game) : game :=
  mk ps (attribute g) (willExit g).

(** *** The phase *)

(** The loop of [state()], from index [pi] on: [rest] are the parties not
    yet visited, [n] is [parties.size()]. *)
Fixpoint state_scan (n pi : nat) (rest : list party) : state :=
  match rest with
  | [] => combat
  | p :: rest' =>
      if Party.defeated p then
        match (n - pi - 1)%nat with
        | O => victory
        | _ => defeat
        end
      else state_scan n (S pi) rest'
  end.

(** [virtual enum state state (void)]. *)
Definition state_of (g : game) : state :=
  if willExit g then exit
  else if (length (parties g) =? 1)%nat then menu
  else state_scan (length (parties g)) 0 (parties g).

(** The phase as the specification words it: the exit flag first, then
    the single-party menu, then the first defeated party in index order
    decides. *)
Definition state_spec (g : game) : state :=
  if willExit g then exit
  else if decide (length (parties g) = 1%nat) then menu
  else
    match list_find (λ p, Party.defeated p = true) (parties g) with
    | Some (pi, _) =>
        if decide (pi = (length (parties g) - 1)%nat) then victory else defeat
    | None => combat
    end.

(** *** Pointers into the parties *)

(** [*cha] for a pointer into the game's storage.  A handle outside the
    storage is a dangling pointer, which the source never forms. *)
Definition deref (g : game) (r : ref) : option character :=
  p ← parties g !! r.1; Party.members p !! r.2.

(** [for (auto &h : pa) push_back(&h)] for the party at index [pi]. *)
Definition pointers (pi : nat) (pa : party) : list ref :=
  (λ ci, (pi, ci)) <$> seq 0 (length (Party.members pa)).

(** [for (auto &pa : parties) for (auto &h : pa) push_back(&h)]. *)
Definition all_characters (g : game) : list ref :=
  mjoin (imap pointers (parties g)).

(** The outer loop of [partyOf] from index [pi] on; [&ca == &c] for some
    [ca] of the party is membership of [c] among its pointers. *)
Fixpoint partyOf_scan (pi : nat) (rest : list party) (c : ref) : nat :=
  match rest with
  | [] => 0%nat
  | pa :: rest' =>
      if bool_decide (c ∈ pointers pi pa) then pi
      else partyOf_scan (S pi) rest' c
  end.

(** [template <typename C> size_t partyOf(const C &c) const]. *)
Definition partyOf (g : game) (c : ref) : nat :=
  partyOf_scan 0 (parties g) c.

(** [template <typename C> bool useAI(const C &c) const]. *)
Definition useAI (g : game) (c : ref) : bool :=
  (0 <? partyOf g c)%nat.

(** Modelled from the spec: [defeated()] of [character.h], "entire owning
    party is not alive".  The owning party of a pointer is the one it
    points into. *)
Definition defeated (g : game) (r : ref) : bool :=
  from_option Party.defeated false (parties g !! r.1).

(** [c.scope(s)] and [c.filter(s)]: lookups into the descriptor the actor
    has bound under [s]. *)
Definition scope (g : game) (c : ref) (s : string) : option Action.scope :=
  cha ← deref g c; Action.dscope <$> Character.lookup cha s.

Definition filter_of (g : game) (c : ref) (s : string) : option Action.filter :=
  cha ← deref g c; Action.dfilter <$> Character.lookup cha s.

(** *** Turn order *)

(** [std::iter_swap] of positions [i] and [j]. *)
Definition swap {A : Type} (i j : nat) (l : list A) : list A :=
  match l !! i, l !! j with
  | Some x, Some y => <[i := y]> (<[j := x]> l)
  | _, _ => l
  end.

(** [std::random_shuffle(first, last)] as the standard library runs it: for
    [i] from 1 to the end, swap position [i] with position
    [rand() % (i + 1)].  [rand k] is the value of the [k]-th draw. *)
Fixpoint random_shuffle_from {A : Type} (rand : nat → nat) (steps i : nat)
    (l : list A) : list A :=
  match steps with
  | O => l
  | S steps' =>
      random_shuffle_from rand steps' (S i)
        (swap i (rand (i - 1)%nat `mod` S i)%nat l)
  end.

Definition random_shuffle {A : Type} (rand : nat → nat) (l : list A) : list A :=
  random_shuffle_from rand (length l - 1) 1 l.

(** The lambda of [turnOrder]: [cha->able()]. *)
Definition able (g : game) (r : ref) : bool :=
  from_option Character.able false (deref g r).

(** [std::vector<character *> turnOrder(void)]. *)
Definition turnOrder (rand : nat → nat) (g : game) : list ref :=
  let candidates := all_characters g in
  let filteredCandidates := filter (λ r, able g r = true) candidates in
  random_shuffle rand filteredCandidates.

(** [character &nextCharacter(void)]: element 0 of the turn order; [None]
    where the source reads past the end of an empty vector. *)
Definition nextCharacter (rand : nat → nat) (g : game) : option ref :=
  turnOrder rand g !! 0%nat.

(** *** Target resolution *)

(** The first switch of [resolve(C &c, const std::string &s)]: the
    candidates by scope, in insertion order.  [parties[p]] with no party at
    [p] (possible only when there is no party at all) is undefined in the
    source and yields no candidate here. *)
Definition candidates (g : game) (c : ref) (sc : Action.scope) : list ref :=
  let p := partyOf g c in
  match sc with
  | Action.self => [c]
  | Action.ally | Action.party =>
      from_option (pointers p) [] (parties g !! p)
  | Action.enemy | Action.enemies =>
      mjoin (imap (λ pi pa, if decide (pi ≠ p) then pointers pi pa else [])
                  (parties g))
  | Action.everyone => all_characters g
  end.

(** The lambdas of the second switch, on the character pointed to. *)
Definition healthy (cha : character) : bool :=
  Character.get cha "HP/Current" =? Character.get cha "HP/Total".

Definition unhealthy (cha : character) : bool :=
  Character.alive cha
  && (Character.get cha "HP/Current" <? Character.get cha "HP/Total").

Definition holds (g : game) (f : character → bool) (r : ref) : Prop :=
  from_option f false (deref g r) = true.

#[global] Instance holds_dec g f r : Decision (holds g f r).
Proof. unfold holds. apply _. Defined.

(** The second switch of [resolve]: [std::copy_if] per filter. *)
Definition filtered (g : game) (fi : Action.filter) (cands : list ref)
    : list ref :=
  match fi with
  | Action.none => cands
  | Action.onlyHealthy => filter (holds g healthy) cands
  | Action.onlyAlive => filter (holds g Character.alive) cands
  | Action.onlyUnhealthy => filter (holds g unhealthy) cands
  | Action.onlyDead => filter (holds g (λ cha, negb (Character.alive cha))) cands
  | Action.onlyUndefeated => filter (λ r, defeated g r = false) cands
  end.

(** What the interaction surface is asked and told. *)
Inductive event : Type :=
  | QueryLabel (actor : ref) (labels : list string)
  | QueryTarget (actor : ref) (cands : list ref)
  | NotifyAction (s : string) (actor : ref) (targets : list ref)
  | Invoked (s : string) (actor : ref) (targets : list ref).

Inductive error : Type :=
  | UnknownAction
  | InsufficientResource
  | DanglingPointer.

(** [interact.query(game, c, filteredCandidates, 8)]: the single-target
    chooser, an external collaborator; no selection is [None]. *)
Definition chooser : Type := game → ref → list ref → option (list ref).

(** The rest of [resolve(c, s)] once scope and filter are looked up: the
    empty check and the last switch.  The second component lists the
    questions put to the interaction surface. *)
Definition resolve_scoped (choose : chooser) (g : game) (c : ref)
    (sc : Action.scope) (fi : Action.filter)
    : option (list ref) * list event :=
  let filteredCandidates := filtered g fi (candidates g c sc) in
  if (length filteredCandidates =? 0)%nat then (None, [])
  else
    match sc with
    | Action.self | Action.party | Action.enemies | Action.everyone =>
        (Some filteredCandidates, [])
    | Action.ally | Action.enemy =>
        (choose g c filteredCandidates, [QueryTarget c filteredCandidates])
    end.

(** [efgy::maybe<std::vector<character *>> resolve(C &c, const std::string &s)].
    An unbound name is the error of [scope]/[filter]. *)
Definition resolve (choose : chooser) (g : game) (c : ref) (s : string)
    : (error + option (list ref)) * list event :=
  match deref g c with
  | None => (inl DanglingPointer, [])
  | Some _ =>
      match scope g c s, filter_of g c s with
      | Some sc, Some fi =>
          let '(targets, asked) := resolve_scoped choose g c sc fi in
          (inr targets, asked)
      | _, _ => (inl UnknownAction, [])
      end
  end.

(** The caller's reading of a [maybe]: [!targets || targets.just.size() < 1]
    is no target at all. *)
Definition targets_of (m : option (list ref)) : list ref := default [] m.

(** *** Invoking a bound action *)

Definition set_base (o : object) (cha : character) : character :=
  Character.mk o (Character.equipment cha) (Character.actions cha).

(** Assignment through a pointer. *)
Definition update (g : game) (r : ref) (f : character → character) : game :=
  with_parties
    (alter (λ pa, Party.mk (alter f r.2 (Party.members pa)) (Party.inventory pa))
           r.1 (parties g)) g.

(** The objects an effect can reach through its pointers. *)
Definition heap_of (g : game) : Action.heap :=
  list_to_map
    (omap (λ r, (λ cha, (r, Character.base cha)) <$> deref g r)
          (all_characters g)).

(** The objects after an effect, back in their characters. *)
Definition store (h : Action.heap) (g : game) : game :=
  with_parties
    (imap (λ pi pa,
        Party.mk
          (imap (λ ci cha,
               set_base (default (Character.base cha) (h !! (pi, ci))) cha)
             (Party.members pa))
          (Party.inventory pa))
      (parties g)) g.

(** Modelled from the spec: [resource::cost] is affordable when "the
    cost's attribute ≥ amount". *)
Definition affordable (o : object) (c : Resource.cost) : bool :=
  Resource.amount c <=? Object.get o (Resource.resource c).

(** Modelled from the spec: deducting a cost. *)
Definition deduct (o : object) (c : Resource.cost) : object :=
  Object.add o (Resource.resource c) (- Resource.amount c).

(** Modelled from the spec: [operator()(name, targets)] of [character.h]
    (the spec's [invoke]), "checks resource costs are affordable (every
    cost's attribute ≥ amount); if not, signals InsufficientResource and
    performs no mutation; else deducts costs, invokes the effect function
    with ({this}, targets), returns its description". *)
Definition invoke (g : game) (actor : ref) (s : string) (targets : list ref)
    : game * (error + string) :=
  match deref g actor with
  | None => (g, inl DanglingPointer)
  | Some cha =>
      match Character.lookup cha s with
      | None => (g, inl UnknownAction)
      | Some d =>
          if forallb (affordable (Character.base cha)) (Action.cost d) then
            let g1 :=
              update g actor
                (λ c, set_base (foldl deduct (Character.base c) (Action.cost d)) c) in
            let '(h, description) := Action.apply d [actor] targets (heap_of g1) in
            (store h g1, inr description)
          else (g, inl InsufficientResource)
      end
  end.

(** *** The menu *)

(** [std::function<std::string(bool &, const character &)>], a member of
    the game: the retry flag goes in and out, the game may change. *)
Definition handler : Type := bool → game → ref → bool * game * string.

(** [actionMap], a [std::map]: an association list in key order. *)
Definition actionMap : Type := list (string * handler).

(** [actions[k] = h]. *)
Fixpoint bind_action (k : string) (h : handler) (m : actionMap) : actionMap :=
  match m with
  | [] => [(k, h)]
  | (k', h') :: m' =>
      match String.compare k k' with
      | Lt => (k, h) :: m
      | Eq => (k, h) :: m'
      | Gt => (k', h') :: bind_action k h m'
      end
  end.

(** [actions.find(s)]. *)
Definition find_action (m : actionMap) (s : string) : option handler :=
  (λ hit : nat * (string * handler), hit.2.2)
    <$> list_find (λ b : string * handler, b.1 = s) m.

(** [static std::string ignore(bool &retry, const character &)]. *)
Definition ignore : handler :=
  λ _ g _, (true, g, "Scratch that.").

(** [std::string quit(bool &retry, const character &)]. *)
Definition quit : handler :=
  λ _ g _, (false, mk (parties g) (attribute g) true, "Quit.").

(** [std::string inspect(bool &retry, const character &c)]: a display, and
    a retry. *)
Definition inspect : handler :=
  λ _ g _, (true, g, "Let's see...").

(** [virtual actionMap actions(character &c)] of the base. *)
Definition actions (g : game) (c : ref) : actionMap :=
  if negb (useAI g c)
  then bind_action "Quit/No" ignore (bind_action "Quit/Yes" quit [])
  else [].

(** Modelled from the spec: [visibleActions()] of [character.h],
    "menu-visible bound actions, in binding order". *)
Definition visibleActions (cha : character) : list string :=
  (filter (λ b : string * Action.descriptor, Action.visible b.2 = true)
          (Character.actions cha)).*1.

(** How one pass through the body of the [do ... while (retry)] ends. *)
Inductive pass : Type :=
  | Retry (g : game) (res : string)
  | Return (g : game) (res : error + string).

(** The body of the loop of [resolve(target, actions, allowCharacterActions)]
    for the label [s] that [interact.query] returned. *)
Definition menu_pass (choose : chooser) (g : game) (target : ref)
    (am : actionMap) (res s : string) : pass * list event :=
  if String.eqb s "Cancel" then (Retry g res, [])
  else
    match find_action am s with
    | Some h =>
        let '(retry, g', r) := h false g target in
        (if retry then Retry g' r else Return g' (inr r), [])
    | None =>
        match resolve choose g target s with
        | (inl e, asked) => (Return g (inl e), asked)
        | (inr targets, asked) =>
            match targets with
            | None => (Retry g res, asked)
            | Some just =>
                if (length just <? 1)%nat then (Retry g res, asked)
                else
                  let '(g', r) := invoke g target s just in
                  (Return g' r,
                   asked ++ [NotifyAction s target just; Invoked s target just])
            end
        end
    end.

(** The loop, fed with the labels the interaction surface returns one
    after the other; [None] when it is still waiting for a label. *)
Fixpoint menu_loop (choose : chooser) (answers : list string) (g : game)
    (target : ref) (am : actionMap) (labels : list string) (res : string)
    : option (game * (error + string)) * list event :=
  match answers with
  | [] => (None, [QueryLabel target labels])
  | s :: answers' =>
      match menu_pass choose g target am res s with
      | (Retry g' res', told) =>
          let '(r, rest) := menu_loop choose answers' g' target am labels res' in
          (r, QueryLabel target labels :: told ++ rest)
      | (Return g' r, told) =>
          (Some (g', r), QueryLabel target labels :: told)
      end
  end.

(** [std::string resolve(character &target, actionMap &actions,
    bool allowCharacterActions)]. *)
Definition resolve_menu (choose : chooser) (answers : list string) (g : game)
    (target : ref) (am : actionMap) (allowCharacterActions : bool)
    : option (game * (error + string)) * list event :=
  let labels :=
    (if allowCharacterActions
     then from_option visibleActions [] (deref g target) else [])
    ++ am.*1 in
  menu_loop choose answers g target am labels "".

(** *** Parties coming and going *)

(** Conversion of a [long] to [size_t] and back, 64 bits. *)
Definition to_size_t (z : Z) : Z := z `mod` 2 ^ 64.

Definition to_long (z : Z) : Z :=
  if z `mod` 2 ^ 64 <? 2 ^ 63 then z `mod` 2 ^ 64 else z `mod` 2 ^ 64 - 2 ^ 64.

(** [party::generate(4)], the rule set's factory: an external collaborator
    that may look at the parties present. *)
Definition factory : Type := list party → party.

Fixpoint generate_loop (generate : factory) (fuel : nat) (ps : list party)
    (out : string) : list party * string :=
  match fuel with
  | O => (ps, out)
  | S fuel' =>
      generate_loop generate fuel' (ps ++ [generate ps])
        (out +:+ "a new party appeared!" +:+ newline)
  end.

(** [virtual std::string generateParties(void)]: the loop runs while
    [parties.size() < self["parties"]], compared as unsigned. *)
Definition generateParties (generate : factory) (g : game) : game * string :=
  let bound := to_size_t (default 0 (attribute g !! "parties")) in
  let '(ps, out) :=
    generate_loop generate (Z.to_nat (bound - Z.of_nat (length (parties g))))
      (parties g) "" in
  (with_parties ps g, out).

(** [virtual std::string doVictory(void)] of the base:
    [parties.erase(parties.begin()+1)]. *)
Definition doVictory (g : game) : game * string :=
  (with_parties (delete 1%nat (parties g)) g, "The player party was victorious!").

(** [virtual std::string doDefeat(void)]. *)
Definition doDefeat (g : game) : game * string :=
  (g, "The player party was defeated!").

(** [virtual std::string doMenuAction(bool allowCharacterActions)], for the
    [actions] of the rule set in use.  Without an able character the source
    follows a pointer that is not there; the model reports it. *)
Definition doMenuAction (acts : game → ref → actionMap) (choose : chooser)
    (rand : nat → nat) (answers : list string) (g : game)
    (allowCharacterActions : bool)
    : option (game * (error + string)) * list event :=
  match nextCharacter rand g with
  | None => (Some (g, inl DanglingPointer), [])
  | Some c => resolve_menu choose answers g c (acts g c) allowCharacterActions
  end.

End Game.

Abbreviation game := Game.game.

(* ===================================================================== *)
(** ** metaquest::rules::simple *)
(* ===================================================================== *)

Module Simple.

(** Two revisions of [rules-simple.h] are embedded: the one with
    [getPoints], [fight] and the rule set's menu, and the one whose game
    overrides [doVictory] with the loot and the reward. *)

(** [static long getPoints(long level)]; [%] truncates towards zero.  The
    product and the sum are those of [long]: out of its range the value is
    the two's complement one. *)
Definition getPoints (level : Z) : Z :=
  Game.to_long (level * 10 + Z.rem level 2 * 5).

(** [static long getHPTotal(const object<long> &t)]. *)
Definition getHPTotal : Object.attrfun :=
  λ t, getPoints (Game.to_long (t "Level" + 1)).

(** [static long getMPTotal(const object<long> &t)]. *)
Definition getMPTotal : Object.attrfun :=
  λ t, getPoints (Game.to_long (Game.to_long (t "Level" + 1) * 2)).

(** Conversion of a [long] argument to an [int] parameter, 32 bits. *)
Definition to_int (z : Z) : Z :=
  if z `mod` 2 ^ 32 <? 2 ^ 31 then z `mod` 2 ^ 32 else z `mod` 2 ^ 32 - 2 ^ 32.

(** The loop of [roll]: [res += 1 + rng() % sides], [n] times.  The
    generator is a static of [roll]; seen from one call of an effect, it is
    the sequence [rng] of the numbers it returns, and [pos] counts the
    draws made so far.  The sum is formed in the generator's unsigned type
    and stored back into the [int]. *)
Fixpoint roll_loop (rng : nat → nat) (n pos : nat) (sides res : Z) : Z * nat :=
  match n with
  | O => (res, pos)
  | S n' =>
      roll_loop rng n' (S pos) sides
        (to_int (res + (1 + Z.of_nat (rng pos) `mod` sides)))
  end.

(** [static int roll(int num, int sides = 6)], with the default number of
    sides. *)
Definition roll (rng : nat → nat) (pos : nat) (num : Z) : Z * nat :=
  roll_loop rng (Z.to_nat num) pos 6 0.

(** The body of the loops of [attack] for one source and one target: the
    objects by pointer, the draws made, the text so far.  A pointer to no
    object does not occur. *)
Definition attack_one (rng : nat → nat) (s t : ref)
    (st : Action.heap * nat * string) : Action.heap * nat * string :=
  let '(h, pos, os) := st in
  match h !! s, h !! t with
  | Some so, Some to =>
      let os :=
        os +:+ Object.name so +:+ " attacks " +:+ Object.name to +:+ newline in
      let '(dmg, pos) := roll rng pos (to_int (Object.get so "Attack")) in
      let '(def, pos) := roll rng pos (to_int (Object.get so "Defence")) in
      let admg := dmg - def in
      if 0 <? admg then
        (<[t := Object.add to "HP/Current" (- admg)]> h, pos,
         os +:+ Object.name so +:+ " hits for " +:+ pretty admg +:+ " ("
            +:+ pretty dmg +:+ ") points of damage" +:+ newline)
      else (h, pos, os +:+ Object.name so +:+ " misses" +:+ newline)
  | _, _ => st
  end.

(** [static std::string attack(objects<long> &source, objects<long> &target)]. *)
Definition attack (rng : nat → nat) : Action.effect :=
  λ source target h,
    let '(h', _, os) :=
      foldl (λ st s, foldl (λ st t, attack_one rng s t st) st target)
            (h, 0%nat, "") source in
    (h', os).

(** The body of the loops of [heal] for one source and one target.  The
    MP looked at and taken are the target's; the source is read after that
    write. *)
Definition heal_one (rng : nat → nat) (s t : ref)
    (st : Action.heap * nat * string) : Action.heap * nat * string :=
  let '(h, pos, os) := st in
  match h !! s, h !! t with
  | Some so, Some to =>
      if Object.get to "MP/Current" <? 2 then
        (h, pos, os +:+ Object.name so +:+ " does not have enough MP!" +:+ newline)
      else
        let to := Object.add to "MP/Current" (-2) in
        let h := <[t := to]> h in
        let os :=
          os +:+ Object.name so +:+ " heals " +:+ Object.name to +:+ newline in
        let so := default so (h !! s) in
        let '(amt, pos) := roll rng pos (to_int (Object.get so "Attack")) in
        let os :=
          os +:+ Object.name so +:+ " heals " +:+ pretty amt
             +:+ " points of damage" +:+ newline in
        (<[t := Object.add_capped to "HP/Current" "HP/Total" amt]> h, pos, os)
  | _, _ => st
  end.

(** [static std::string heal(objects<long> &source, objects<long> &target)]. *)
Definition heal (rng : nat → nat) : Action.effect :=
  λ source target h,
    let '(h', _, os) :=
      foldl (λ st s, foldl (λ st t, heal_one rng s t st) st target)
            (h, 0%nat, "") source in
    (h', os).

(** [static std::string pass(objects<long> &source, objects<long> &target)]. *)
Definition pass : Action.effect :=
  λ source _ h,
    (h, foldl (λ os s,
                 match h !! s with
                 | Some so =>
                     os +:+ Object.name so
                        +:+ " would rather be reading a book." +:+ newline
                 | None => os
                 end) "" source).

(** The three [bind] calls of the constructor of [character]; the filter
    that the last one leaves out is taken to be [none]. *)
Definition bindings (rng : nat → nat) : list (string * Action.descriptor) :=
  [("Attack",
    Action.mk true (attack rng) Action.enemy Action.onlyUndefeated []);
   ("Skill/Heal",
    Action.mk true (heal rng) Action.ally Action.onlyUnhealthy
      [Resource.mk 2 "MP"]);
   ("Pass", Action.mk true pass Action.self Action.none [])].

(** [std::string fight(bool &retry, const character &)]. *)
Definition fight (generate : Game.factory) : Game.handler :=
  λ retry g _,
    let g1 := Game.mk (Game.parties g) (<["parties" := 2]> (Game.attribute g))
                (Game.willExit g) in
    (retry, (Game.generateParties generate g1).1,
     "OFF WITH THEIR HEADS!" +:+ newline).

(** [virtual actionMap actions(character &c)] of the rule set. *)
Definition actions (generate : Game.factory) (g : game) (c : ref)
    : Game.actionMap :=
  let actions := Game.actions g c in
  let actions :=
    match Game.state_of g with
    | Game.menu => Game.bind_action "Fight" (fight generate) actions
    | _ => actions
    end in
  if negb (Game.useAI g c)
  then Game.bind_action "Inspect" Game.inspect actions
  else actions.

(** The running sum and the growing inventory of the loop over the
    defeated party in [doVictory]. *)
Definition loot (acc : list item * Z) (c : character) : list item * Z :=
  (acc.1 ++ Character.equipment c, acc.2 + Character.get c "Experience").

(** [xp /= p.size(); if (xp == 0) xp = 1;]: the division is done in
    [size_t].  An empty player party divides by zero in the source. *)
Definition reward (xp : Z) (size : nat) : Z :=
  let xp := Game.to_long (Game.to_size_t xp / Z.of_nat size) in
  if xp =? 0 then 1 else xp.

(** [virtual std::string doVictory(void)] of the rule set. *)
Definition doVictory (g : game) : game * string :=
  let g1 :=
    match Game.parties g with
    | p :: d :: rest =>
        let inventory := Party.inventory p ++ Party.inventory d in
        let '(inventory, xp) := foldl loot (inventory, 0) (Party.members d) in
        let xp := reward xp (length (Party.members p)) in
        let p' :=
          Party.mk ((λ c, Character.add c "Experience" xp) <$> Party.members p)
                   inventory in
        Game.with_parties (p' :: d :: rest) g
    | _ => g
    end in
  Game.doVictory g1.

(** The constructor [character(long points = 1)], on top of what the
    constructor of the parent leaves ([parent]) and with the name that was
    generated ([cname]). *)
Definition character (rng : nat → nat) (parent : object) (cname : string)
    : Character.character :=
  let o :=
    Object.mk cname
      (<["Experience" := 0]>
         (<["Defence" := 3]> (<["Attack" := 6]> (Object.attribute parent))))
      (<["MP/Total" := getMPTotal]>
         (<["HP/Total" := getHPTotal]> (Object.function parent))) in
  let o := Object.set o "HP/Current" (Object.get o "HP/Total") in
  let o := Object.set o "MP/Current" (Object.get o "MP/Total") in
  Character.mk o [] (bindings rng).

End Simple.

(* ===================================================================== *)
(** ** What can happen to a game *)
(* ===================================================================== *)

Module Engine.

(** One operation of the game object, as the outer loop, a menu handler or
    a character's action performs it: the game before and after.  A command
    bound with [bind(name, apply)] works on the game as an object and can
    reach its attributes only.  A menu that is still waiting for a label
    has not returned and is no step. *)
Inductive step : game → game → Prop :=
  | step_quit retry g c :
      step g (Game.quit retry g c).1.2
  | step_ignore retry g c :
      step g (Game.ignore retry g c).1.2
  | step_inspect retry g c :
      step g (Game.inspect retry g c).1.2
  | step_fight generate retry g c :
      step g (Simple.fight generate retry g c).1.2
  | step_generateParties generate g :
      step g (Game.generateParties generate g).1
  | step_doVictory g :
      step g (Game.doVictory g).1
  | step_doVictory_simple g :
      step g (Simple.doVictory g).1
  | step_doDefeat g :
      step g (Game.doDefeat g).1
  | step_invoke g actor s targets :
      step g (Game.invoke g actor s targets).1
  | step_command attrs g :
      step g (Game.mk (Game.parties g) attrs (Game.willExit g))
  | step_doMenuAction choose rand answers g allow g' r told :
      Game.doMenuAction Game.actions choose rand answers g allow
      = (Some (g', r), told) →
      step g g'
  | step_doMenuAction_simple generate choose rand answers g allow g' r told :
      Game.doMenuAction (Simple.actions generate) choose rand answers g allow
      = (Some (g', r), told) →
      step g g'.

(** A handler that leaves a set exit flag set. *)
Definition keeps_exit (h : Game.handler) : Prop :=
  ∀ retry g c,
    Game.willExit g = true → Game.willExit (h retry g c).1.2 = true.

End Engine.

(* ===================================================================== *)
(** ** The specification's wording of target resolution *)
(* ===================================================================== *)

Module Wording.

(** A character of the match: a pointer that leads to one. *)
Definition in_match (g : game) (r : ref) : Prop := is_Some (Game.deref g r).

(** The candidates of a scope, in the specification's words: the actor
    alone; the members of the actor's own party; the members of every
    other party; everyone in the match. *)
Definition in_scope (g : game) (c : ref) (sc : Action.scope) (r : ref) : Prop :=
  match sc with
  | Action.self => r = c
  | Action.ally | Action.party => in_match g r ∧ r.1 = c.1
  | Action.enemy | Action.enemies => in_match g r ∧ r.1 ≠ c.1
  | Action.everyone => in_match g r
  end.

(** Whom a filter keeps, in the specification's words; [cha] is the
    candidate [r] points to.  The last case looks at the candidate's party
    as a whole. *)
Definition kept (g : game) (fi : Action.filter) (r : ref) (cha : character)
    : Prop :=
  match fi with
  | Action.none => True
  | Action.onlyHealthy =>
      Character.get cha "HP/Current" = Character.get cha "HP/Total"
  | Action.onlyAlive => Character.alive cha = true
  | Action.onlyUnhealthy =>
      Character.alive cha = true
      ∧ Character.get cha "HP/Current" < Character.get cha "HP/Total"
  | Action.onlyDead => Character.alive cha = false
  | Action.onlyUndefeated =>
      ∃ pa, Game.parties g !! r.1 = Some pa ∧ Party.defeated pa = false
  end.

(** "The sum of the defeated characters' Experience". *)
Definition experience_sum (cs : list character) : Z :=
  foldr (λ c acc, Character.get c "Experience" + acc) 0 cs.

(** Every piece of equipment of the given characters, in order. *)
Definition equipment_of (cs : list character) : list item :=
  mjoin (Character.equipment <$> cs).

End Wording.

(* ===================================================================== *)
(** ** Fixtures: small games to run the definitions on *)
(* ===================================================================== *)

Module Fixture.

(** A source of draws, and a chooser that takes the first candidate. *)
Definition draws : nat → nat := λ k, (3 * k + 1)%nat.

Definition first_candidate : Game.chooser := λ _ _ cands, Some (take 1 cands).

(** A character of level 4 as the rule set's constructor makes it, so with
    55 HP and 100 MP in total. *)
Definition recruit (nm : string) : character :=
  Simple.character draws (Object.mk "" (<["Level" := 4]> ∅) ∅) nm.

(** The recruit later in the game: the HP and Experience it has by then,
    and the MP that the cost of its heal is read from. *)
Definition body (nm : string) (hp mp xp : Z) : object :=
  Object.set
    (Object.set (Object.set (Character.base (recruit nm)) "HP/Current" hp)
       "MP" mp)
    "Experience" xp.

Definition fighter (nm : string) (hp mp xp : Z) : character :=
  Character.mk (body nm hp mp xp) [mkItem ["Sword"; nm] ∅ (Object.mk "" ∅ ∅)]
    (Simple.bindings draws).

Definition potion : item := mkItem ["Potion"] ∅ (Object.mk "" ∅ ∅).

Definition game_of (ps : list party) : game := Game.mk ps ∅ false.

(** One party of two, both well. *)
Definition camp : game :=
  game_of [Party.mk [fighter "Ann" 55 4 7; fighter "Bob" 30 1 3] []].

(** Two parties in combat: Ann and a wounded Bob against Cid. *)
Definition duel : game :=
  game_of [Party.mk [fighter "Ann" 55 4 7; fighter "Bob" 30 1 3] [];
           Party.mk [fighter "Cid" 20 0 5] [potion]].

(** The player party has won: the other party is down. *)
Definition won : game :=
  game_of [Party.mk [fighter "Ann" 55 4 7] [];
           Party.mk [fighter "Cid" 0 0 5] [potion]].

(** Nobody is left standing. *)
Definition wiped : game :=
  game_of [Party.mk [fighter "Ann" 0 4 7] [];
           Party.mk [fighter "Cid" 0 0 5] [potion]].

(** A single party with nobody standing. *)
Definition fallen : game :=
  game_of [Party.mk [fighter "Ann" 0 4 7] []].

(** Three parties, only the last one down. *)
Definition melee : game :=
  game_of [Party.mk [fighter "Ann" 55 4 7] [];
           Party.mk [fighter "Bea" 40 0 2] [];
           Party.mk [fighter "Cid" 0 0 5] [potion]].

(** The two-party scenario of the specification: A with 50 of 50 HP, B
    down, with 7 and 5 Experience. *)
Definition scenario_body (nm : string) (hp xp : Z) : object :=
  Object.mk nm (<["HP/Current" := hp]> (<["Experience" := xp]> ∅))
            (<["HP/Total" := (λ _, 50) : Object.attrfun]> ∅).

Definition scenario_A : party :=
  Party.mk [Character.mk (scenario_body "A" 50 7) [] (Simple.bindings draws)] [].

Definition scenario_B : party :=
  Party.mk
    [Character.mk (scenario_body "B" 0 5) [potion] (Simple.bindings draws)]
    [potion].

Definition scenario : game := game_of [scenario_A; scenario_B].

End Fixture.

(* ===================================================================== *)
(** ** More of metaquest::game::base *)
(* ===================================================================== *)

Module Base.

(** The loop of [positionOf] over the party at index [party], from position
    [pi] on; [&ca == &c] for the member at [pi] is equality of pointers. *)
Fixpoint positionOf_scan (party pi : nat) (rest : list character) (c : ref)
    : nat :=
  match rest with
  | [] => 0%nat
  | _ :: rest' =>
      if bool_decide ((party, pi) = c) then pi
      else positionOf_scan party (S pi) rest' c
  end.

(** [template <typename C> size_t positionOf(const C &c) const].
    [parties[party]] without any party is undefined in the source and gives
    0 here. *)
Definition positionOf (g : game) (c : ref) : nat :=
  let party := Game.partyOf g c in
  from_option (λ pa, positionOf_scan party 0 (Party.members pa) c) 0%nat
    (Game.parties g !! party).

(** [virtual std::string doMenu(void)] and [doCombat(void)]. *)
Definition doMenu (acts : game → ref → Game.actionMap) (choose : Game.chooser)
    (rand : nat → nat) (answers : list string) (g : game)
    : option (game * (Game.error + string)) * list Game.event :=
  Game.doMenuAction acts choose rand answers g false.

Definition doCombat (acts : game → ref → Game.actionMap) (choose : Game.chooser)
    (rand : nat → nat) (answers : list string) (g : game)
    : option (game * (Game.error + string)) * list Game.event :=
  Game.doMenuAction acts choose rand answers g true.

End Base.

(* ===================================================================== *)
(** ** metaquest::flow::generic *)
(* ===================================================================== *)

Module Flow.

(** The game class [run] is instantiated with, as far as it differs between
    rule sets: the menu and what victory does. *)
Record logic : Type := mkLogic {
  actions : game → ref → Game.actionMap;
  doVictory : game → game * string
}.

(** [game::base] as it is, and the game of [rules-simple.h] with its menu. *)
Definition base_logic : logic := mkLogic Game.actions Game.doVictory.

Definition simple_logic (generate : Game.factory) : logic :=
  mkLogic (Simple.actions generate) Game.doVictory.

(** What one menu or combat turn is fed with: the draws of the shuffle and
    the labels the interaction surface returns. *)
Record turn : Type := mkTurn {
  draws : nat → nat;
  answers : list string
}.

(** How [run] stands after some iterations: returned with its value;
    still waiting for input (or out of the iterations granted); or left by
    the error of an action. *)
Inductive outcome : Type :=
  | Returned (b : bool) (g : game) (log : list string)
  | Waiting (g : game) (log : list string)
  | Thrown (e : Game.error) (g : game) (log : list string).

(** [bool run(void)]: the loop over [game.state()], at most [fuel] times
    round; [log] is what [interact.log] has been given. *)
Fixpoint run (L : logic) (choose : Game.chooser) (fuel : nat)
    (turns : list turn) (g : game) (log : list string) : outcome :=
  match fuel with
  | O => Waiting g log
  | S fuel' =>
      let menu_or_combat (allowCharacterActions : bool) :=
        match turns with
        | [] => Waiting g log
        | t :: turns' =>
            match Game.doMenuAction (actions L) choose (draws t) (answers t) g
                    allowCharacterActions with
            | (Some (g', inr text), _) =>
                run L choose fuel' turns' g' (log ++ [text])
            | (Some (g', inl e), _) => Thrown e g' log
            | (None, _) => Waiting g log
            end
        end in
      match Game.state_of g with
      | Game.menu => menu_or_combat false
      | Game.combat => menu_or_combat true
      | Game.victory =>
          let '(g', text) := doVictory L g in
          run L choose fuel' turns g' (log ++ [text])
      | Game.defeat => Returned true g (log ++ [(Game.doDefeat g).2])
      | Game.exit => Returned true g log
      end
  end.

End Flow.

(* ===================================================================== *)
(** ** rules::simple::game::generateParty *)
(* ===================================================================== *)

Module SimpleParty.

(** The loop of [generateParty]: the points handed to [generateCharacter]
    for the members from [i] on, [n] of them.  All but the last take
    [rng() % points] of what is left while something is left; [pos] counts
    the draws.  The counter of the source is an [unsigned int]: the loop is
    this one for fewer than 2^32 members. *)
Fixpoint shares (rng : nat → nat) (n : nat) (pos : nat) (i members points : Z)
    : list Z :=
  match n with
  | O => []
  | S n' =>
      if (0 <? points) && (i <? members - 1) then
        let cpoints := Z.of_nat (rng pos) `mod` points in
        cpoints :: shares rng n' (S pos) (i + 1) members (points - cpoints)
      else points :: shares rng n' pos (i + 1) members points
  end.

(** [virtual party generateParty(long members, long points)]; the rule
    set's [generateCharacter] is a parameter.  The Experience of party 0 is
    added up in [long]. *)
Definition generateParty (generateCharacter : Z → character) (rng : nat → nat)
    (g : game) (members points : Z) : party :=
  let points :=
    match Game.parties g with
    | p0 :: _ =>
        if points =? 0 then
          foldl (λ points c, Game.to_long (points + Character.get c "Experience"))
                points (Party.members p0)
        else points
    | [] => points
    end in
  Party.mk (generateCharacter <$> shares rng (Z.to_nat members) 0 0 members points)
           [].

End SimpleParty.

(* ===================================================================== *)
(** ** metaquest::interact::terminal *)
(* ===================================================================== *)

Module Terminal.

(** What [io.read] hands to its handlers: a command with its code, or a
    character. *)
Inductive input : Type :=
  | Command (code : Z)
  | Character (l : Z).

(** The variables the two handlers of the selection loops capture. *)
Record cursor : Type := mkCursor {
  selection : Z;
  didSelect : bool;
  didCancel : bool
}.

(** The two lambdas given to [io.read] in the queries: codes 'A' up, 'B'
    down, 'C' select, 'D' cancel; the line feed selects. *)
Definition handle (st : cursor) (i : input) : cursor :=
  match i with
  | Command code =>
      if code =? 65 then mkCursor (selection st - 1) (didSelect st) (didCancel st)
      else if code =? 66 then
        mkCursor (selection st + 1) (didSelect st) (didCancel st)
      else if code =? 67 then mkCursor (selection st) true (didCancel st)
      else if code =? 68 then mkCursor (selection st) (didSelect st) true
      else st
  | Character l =>
      if l =? 10 then mkCursor (selection st) true (didCancel st) else st
  end.

(** The two [if]s after the read: the selection is brought back into the
    list. *)
Definition clamp (size : nat) (selection : Z) : Z :=
  let selection :=
    if Z.of_nat size <=? selection then Z.of_nat size - 1 else selection in
  if selection <? 0 then 0 else selection.

(** The [do ... while (!didSelect)] of the queries.  Each call of [io.read]
    hands over the inputs of one element of [reads]; the result is the
    selection, whether it was a cancel, and the reads left; [None] when the
    loop is still reading. *)
Fixpoint select_loop (size : nat) (reads : list (list input)) (selection : Z)
    : option (Z * bool * list (list input)) :=
  match reads with
  | [] => None
  | batch :: reads' =>
      let st := foldl handle (mkCursor selection false false) batch in
      let selection := clamp size (Terminal.selection st) in
      if didSelect st || didCancel st then Some (selection, didCancel st, reads')
      else select_loop size reads' selection
  end.

(** [la.find('/')] with the two [substr]s: the part before the first slash
    and the part after it, or nothing without a slash. *)
Fixpoint split_slash (la : string) : option (string * string) :=
  match la with
  | EmptyString => None
  | String a la' =>
      if Ascii.eqb a (Ascii.Ascii true true true true false true false false)
      then Some (EmptyString, la')
      else
        match split_slash la' with
        | Some (l, rest) => Some (String a l, rest)
        | None => None
        end
  end.

(** The body of the first loop of the label query: [list] gets each group
    once, in order of appearance; [map] gets the rest of each label under
    its group. *)
Definition enter (acc : list string * gmap string (list string)) (la : string)
    : list string * gmap string (list string) :=
  let '(l, map) :=
    match split_slash la with
    | Some (l, rest) => (l, <[l := default [] (acc.2 !! l) ++ [rest]]> acc.2)
    | None => (la, acc.2)
    end in
  (if bool_decide (l ∈ acc.1) then acc.1 else acc.1 ++ [l], map).

Definition group (pList : list string) : list string * gmap string (list string) :=
  foldl enter ([], ∅) pList.

(** What a query comes to: an answer and the reads left; still reading; or
    an index past the end of an empty list. *)
Inductive reply (A : Type) : Type :=
  | Answered (a : A) (rest : list (list input))
  | Blocked
  | OutOfBounds.

Arguments Answered {A} a rest.
Arguments Blocked {A}.
Arguments OutOfBounds {A}.

(** [std::string query(game, source, pList, indent, carry)] for a character
    the player controls: the part after the test for [useAI].  Every call
    reads at least once, so [fuel] above the number of reads is never used
    up. *)
Fixpoint query_fuel (fuel : nat) (reads : list (list input))
    (pList : list string) (carry : string) : reply string :=
  match fuel with
  | O => Blocked
  | S fuel' =>
      let '(list, map) := group pList in
      match select_loop (length list) reads 0 with
      | None => Blocked
      | Some (selection, didCancel, reads') =>
          if didCancel then Answered "Cancel" reads'
          else
            match list !! Z.to_nat selection with
            | None => OutOfBounds
            | Some sele =>
                match default [] (map !! sele) with
                | [] => Answered (carry +:+ sele) reads'
                | sub =>
                    match query_fuel fuel' reads' sub (carry +:+ sele +:+ "/") with
                    | Answered s reads'' =>
                        if String.eqb s "Cancel"
                        then query_fuel fuel' reads'' pList carry
                        else Answered s reads''
                    | other => other
                    end
                end
            end
      end
  end.

Definition query (reads : list (list input)) (pList : list string)
    (carry : string) : reply string :=
  query_fuel (S (length reads)) reads pList carry.

(** [std::size_t getLine(game, character)]: the screen line of a character;
    [height] is [io.size()[1]], the arithmetic is that of [size_t]. *)
Definition getLine (height : nat) (g : game) (c : ref) : Z :=
  let pa := Game.partyOf g c in
  let pp := Base.positionOf g c in
  (Z.of_nat pp
   + (if (pa =? 0)%nat
      then (Z.of_nat height
            - Z.of_nat (from_option (λ p, length (Party.members p)) 0%nat
                          (Game.parties g !! pa))) `mod` 2 ^ 64
      else 0)) `mod` 2 ^ 64.

(** [std::optional<std::vector<character *>> query(game, source,
    candidates, indent)] for a character the player controls.  [sort] is
    what [std::sort] by [getLine] makes of the candidates. *)
Definition query_target (sort : list ref → list ref)
    (reads : list (list input)) (candidates : list ref)
    : reply (option (list ref)) :=
  if (length candidates =? 1)%nat then Answered (Some candidates) reads
  else
    let candidates := sort candidates in
    match candidates with
    | [] => OutOfBounds
    | _ =>
        match select_loop (length candidates) reads 0 with
        | None => Blocked
        | Some (selection, didCancel, reads') =>
            if didCancel then Answered None reads'
            else
              match candidates !! Z.to_nat selection with
              | Some c => Answered (Some [c]) reads'
              | None => OutOfBounds
              end
        end
    end.

End Terminal.

(* ===================================================================== *)
(** ** What an effect leaves alone *)
(* ===================================================================== *)

Module Frame.

(** Two objects that differ at most in what they store under [keys]: same
    name, same function attributes, same stored value under every other
    key. *)
Definition same_but (keys : list string) (o o' : object) : Prop :=
  Object.name o' = Object.name o
  ∧ Object.function o' = Object.function o
  ∧ ∀ k, k ∉ keys → Object.attribute o' !! k = Object.attribute o !! k.

(** What a list of costs takes from the attribute [k] in all. *)
Definition charged (costs : list Resource.cost) (k : string) : Z :=
  foldr (λ c acc,
           (if decide (Resource.resource c = k) then Resource.amount c else 0)
           + acc)
        0 costs.

(** What an attack on [target] may make of the heap [h]: no object comes
    or goes; an object differs from what it was in its stored HP/Current
    only, which has not gone up; and an object that is no target is what
    it was. *)
Definition attacked (target : list ref) (h h' : Action.heap) : Prop :=
  ∀ r,
    match h !! r, h' !! r with
    | Some o, Some o' =>
        same_but ["HP/Current"] o o'
        ∧ Object.stored o' "HP/Current" ≤ Object.stored o "HP/Current"
        ∧ (r ∉ target → o' = o)
    | None, None => True
    | _, _ => False
    end.

(** What a heal of [target] may make of the heap [h]: no object comes or
    goes; an object differs from what it was in its stored MP/Current and
    HP/Current only, of which the MP have not gone up; an object that is no
    target, or whose MP/Current read below 2, is what it was. *)
Definition treated (target : list ref) (h h' : Action.heap) : Prop :=
  ∀ r,
    match h !! r, h' !! r with
    | Some o, Some o' =>
        same_but ["MP/Current"; "HP/Current"] o o'
        ∧ Object.stored o' "MP/Current" ≤ Object.stored o "MP/Current"
        ∧ (r ∉ target → o' = o)
        ∧ (Object.get o "MP/Current" < 2 → o' = o)
    | None, None => True
    | _, _ => False
    end.

End Frame.

(* ===================================================================== *)
(** ** More fixtures *)
(* ===================================================================== *)

Module Sample.

(** A factory that sends Cid alone, whoever is there. *)
Definition lone_cid : Game.factory :=
  λ _, Party.mk [Fixture.fighter "Cid" 20 0 5] [].

(** A [generateCharacter] that stores its points as Experience and has
    nothing else. *)
Definition novice (points : Z) : character :=
  Character.mk (Object.mk "novice" (<["Experience" := points]> ∅) ∅) [] [].

(** The keys of the terminal. *)
Definition up : Terminal.input := Terminal.Command 65.
Definition down : Terminal.input := Terminal.Command 66.
Definition right : Terminal.input := Terminal.Command 67.
Definition left : Terminal.input := Terminal.Command 68.
Definition line_feed : Terminal.input := Terminal.Character 10.

(** Sorting the candidates by their line on a terminal of [height] lines,
    by insertion. *)
Fixpoint insert_by (key : ref → Z) (x : ref) (l : list ref) : list ref :=
  match l with
  | [] => [x]
  | y :: l' => if key x <? key y then x :: l else y :: insert_by key x l'
  end.

Definition by_line (height : nat) (g : game) (l : list ref) : list ref :=
  foldr (insert_by (Terminal.getLine height g)) [] l.

End Sample.

(* ===================================================================== *)
(** * Properties *)
(* ===================================================================== *)

(** ** The phase *)

Section StateMachine.

Import Game.

(** The scan started at index [pi] with the parties from [pi] on finds the
    first defeated party of the rest and judges it by its absolute index. *)
Lemma state_scan_find (n pi : nat) (rest : list party) :
  (pi + length rest = n)%nat →
  state_scan n pi rest =
    match list_find (λ p, Party.defeated p = true) rest with
    | Some (k, _) =>
        if decide ((pi + k)%nat = (n - 1)%nat) then victory else defeat
    | None => combat
    end.
Proof.
  revert pi. induction rest as [|p rest IH]; intros pi Hn; simpl; [done|].
  simpl in Hn. case_decide as Hd.
  - rewrite Hd. simpl.
    destruct (n - pi - 1)%nat eqn:E; case_decide; try done; lia.
  - destruct (Party.defeated p) eqn:Ed; [done|].
    rewrite (IH (S pi)) by lia.
    destruct (list_find _ rest) as [[k q]|]; simpl; [|done].
    repeat case_decide; try done; lia.
Qed.

(** C1. [state()] returns exit when the exit flag is set; otherwise menu
    when exactly one party exists, whatever its condition; otherwise the
    first defeated party in index order decides: victory if it is the last
    party, defeat if it is any other; combat if no party is defeated.  The
    result is a function of the flag and the parties alone: nothing is
    stored between calls. *)
Theorem state_is_state_spec (g : game) :
  state_of g = state_spec g
  ∧ (∀ g' : game,
       willExit g' = willExit g → parties g' = parties g →
       state_of g' = state_of g).
Proof.
  split.
  - unfold state_of, state_spec. destruct (willExit g); [done|].
    destruct (Nat.eqb_spec (length (parties g)) 1) as [E|E];
      case_decide; try done.
    rewrite state_scan_find by done. simpl.
    destruct (list_find _ (parties g)) as [[k q]|]; done.
  - intros g' Hw Hp. unfold state_of. by rewrite Hw, Hp.
Qed.

End StateMachine.

(** ** Pointers *)

Section Pointers.

Import Game.

Lemma elem_of_pointers (pi : nat) (pa : party) (r : ref) :
  r ∈ pointers pi pa ↔ r.1 = pi ∧ (r.2 < length (Party.members pa))%nat.
Proof.
  unfold pointers. rewrite list_elem_of_fmap. split.
  - intros (ci & -> & Hci). apply elem_of_seq in Hci. simpl. lia.
  - intros [<- Hlt]. exists r.2. split; [by destruct r|].
    apply elem_of_seq. lia.
Qed.

Lemma NoDup_pointers (pi : nat) (pa : party) : NoDup (pointers pi pa).
Proof.
  unfold pointers. apply NoDup_fmap; [|apply NoDup_seq].
  intros x y [=]. done.
Qed.

Lemma deref_is_Some (g : game) (r : ref) :
  is_Some (deref g r) ↔
  ∃ pa, parties g !! r.1 = Some pa ∧ (r.2 < length (Party.members pa))%nat.
Proof.
  unfold deref. split.
  - intros [cha H]. destruct (parties g !! r.1) as [pa|]; [|done].
    exists pa. split; [done|]. simpl in H. by eapply lookup_lt_Some.
  - intros (pa & -> & Hlt). simpl. by apply lookup_lt_is_Some.
Qed.

(** Joining the per-party lists: membership, with the parties numbered
    from [k]. *)
Lemma elem_of_join_imap (f : nat → party → list ref) (ps : list party) (r : ref) :
  r ∈ mjoin (imap f ps) ↔ ∃ pi pa, ps !! pi = Some pa ∧ r ∈ f pi pa.
Proof.
  rewrite list_elem_of_join. split.
  - intros (l & Hr & Hl). apply elem_of_lookup_imap in Hl as (pi & pa & -> & Hpa).
    eauto.
  - intros (pi & pa & Hpa & Hr). exists (f pi pa). split; [done|].
    by eapply elem_of_lookup_imap_2.
Qed.

Lemma NoDup_join_imap (k : nat) (f : nat → party → list ref) (ps : list party) :
  (∀ pi pa, NoDup (f pi pa)) →
  (∀ pi pa r, r ∈ f pi pa → r.1 = (k + pi)%nat) →
  NoDup (mjoin (imap f ps)).
Proof.
  revert k f. induction ps as [|pa ps IH]; intros k f Hnd Hfst; simpl.
  - constructor.
  - apply NoDup_app. split; [apply Hnd|]. split.
    + intros r Hr Hr'. apply elem_of_join_imap in Hr' as (pi & pa' & _ & Hin).
      apply Hfst in Hr. apply Hfst in Hin. lia.
    + apply (IH (S k)); [intros pi pa'; apply Hnd|].
      intros pi pa' r Hr. apply Hfst in Hr. lia.
Qed.

(** The characters of the match are the pointers that can be followed. *)
Lemma elem_of_all_characters (g : game) (r : ref) :
  r ∈ all_characters g ↔ is_Some (deref g r).
Proof.
  unfold all_characters. rewrite elem_of_join_imap, deref_is_Some. split.
  - intros (pi & pa & Hpa & Hr). apply elem_of_pointers in Hr as [<- Hlt]. eauto.
  - intros (pa & Hpa & Hlt). exists r.1, pa. split; [done|].
    by apply elem_of_pointers.
Qed.

Lemma NoDup_all_characters (g : game) : NoDup (all_characters g).
Proof.
  apply (NoDup_join_imap 0).
  - apply NoDup_pointers.
  - intros pi pa r Hr. by apply elem_of_pointers in Hr as [? _].
Qed.

Lemma partyOf_scan_member (k : nat) (rest : list party) (r : ref) (pa : party) :
  (k ≤ r.1)%nat →
  rest !! (r.1 - k)%nat = Some pa →
  (r.2 < length (Party.members pa))%nat →
  partyOf_scan k rest r = r.1.
Proof.
  revert k. induction rest as [|pa' rest IH]; intros k Hk Hpa Hlt; [done|].
  simpl. case_bool_decide as Hin.
  - apply elem_of_pointers in Hin as [-> _]. done.
  - destruct (decide (r.1 = k)) as [E|Hne].
    + rewrite E, Nat.sub_diag in Hpa. simpl in Hpa. injection Hpa as ->.
      exfalso. apply Hin. by apply elem_of_pointers.
    + apply IH; [lia| |done].
      replace (r.1 - k)%nat with (S (r.1 - S k)) in Hpa by lia. done.
Qed.

(** For a character of the match, [partyOf] is the index of the party that
    holds it. *)
Lemma partyOf_member (g : game) (r : ref) :
  is_Some (deref g r) → partyOf g r = r.1.
Proof.
  intros (pa & Hpa & Hlt)%deref_is_Some. unfold partyOf.
  eapply partyOf_scan_member; [lia| |done]. by rewrite Nat.sub_0_r.
Qed.

End Pointers.

(** ** Target resolution *)

Section Targets.

Import Game Wording.

Lemma candidates_in_scope (g : game) (c : ref) (sc : Action.scope) (r : ref) :
  in_match g c → r ∈ candidates g c sc ↔ in_scope g c sc r.
Proof.
  intros Hc. unfold candidates, in_scope, in_match.
  rewrite (partyOf_member g c Hc).
  apply deref_is_Some in Hc as (pc & Hpc & Hlt).
  destruct sc.
  - apply list_elem_of_singleton.
  - rewrite Hpc. simpl. rewrite elem_of_pointers, deref_is_Some. split.
    + intros [E ?]. split; [|done]. exists pc. by rewrite E.
    + intros [(pa & Hpa & ?) E]. split; [done|]. rewrite E in Hpa. congruence.
  - rewrite Hpc. simpl. rewrite elem_of_pointers, deref_is_Some. split.
    + intros [E ?]. split; [|done]. exists pc. by rewrite E.
    + intros [(pa & Hpa & ?) E]. split; [done|]. rewrite E in Hpa. congruence.
  - rewrite elem_of_join_imap, deref_is_Some. split.
    + intros (pi & pa & Hpa & Hr). case_decide; [|by apply elem_of_nil in Hr].
      apply elem_of_pointers in Hr as [<- ?]. eauto.
    + intros [(pa & Hpa & ?) Hne]. exists r.1, pa. split; [done|].
      rewrite decide_True by done. by apply elem_of_pointers.
  - rewrite elem_of_join_imap, deref_is_Some. split.
    + intros (pi & pa & Hpa & Hr). case_decide; [|by apply elem_of_nil in Hr].
      apply elem_of_pointers in Hr as [<- ?]. eauto.
    + intros [(pa & Hpa & ?) Hne]. exists r.1, pa. split; [done|].
      rewrite decide_True by done. by apply elem_of_pointers.
  - apply elem_of_all_characters.
Qed.

Lemma NoDup_candidates (g : game) (c : ref) (sc : Action.scope) :
  NoDup (candidates g c sc).
Proof.
  assert (NoDup (mjoin (imap
            (λ pi pa, if decide (pi ≠ partyOf g c) then pointers pi pa else [])
            (parties g)))) as Hothers.
  { apply (NoDup_join_imap 0).
    - intros pi pa. case_decide; [apply NoDup_pointers|constructor].
    - intros pi pa r Hr. case_decide; [|by apply elem_of_nil in Hr].
      by apply elem_of_pointers in Hr as [? _]. }
  assert (NoDup (from_option (pointers (partyOf g c)) [] (parties g !! partyOf g c)))
    as Hown.
  { destruct (parties g !! partyOf g c); simpl; [apply NoDup_pointers|constructor]. }
  destruct sc; simpl; try done.
  - apply NoDup_singleton.
  - apply NoDup_all_characters.
Qed.

(** C2. For an actor [c] of the match and an action name [s] it has bound,
    the candidates are exactly those of the scope (the actor; the members
    of its party; the members of every other party; everyone), each once.
    For self, party, enemies and everyone the resolved targets are the
    whole filtered set and the interaction surface is not asked; for ally
    and enemy the filtered set goes to the single-target chooser. *)
Theorem resolve_by_scope (choose : chooser) (g : game) (c : ref) (s : string)
    (sc : Action.scope) (fi : Action.filter) :
  in_match g c →
  scope g c s = Some sc →
  filter_of g c s = Some fi →
  (∀ r, r ∈ candidates g c sc ↔ in_scope g c sc r)
  ∧ NoDup (candidates g c sc)
  ∧ let filteredCandidates := filtered g fi (candidates g c sc) in
    match sc with
    | Action.self | Action.party | Action.enemies | Action.everyone =>
        ∃ m, resolve choose g c s = (inr m, [])
             ∧ targets_of m = filteredCandidates
    | Action.ally | Action.enemy =>
        filteredCandidates ≠ [] →
        resolve choose g c s
        = (inr (choose g c filteredCandidates),
           [QueryTarget c filteredCandidates])
    end.
Proof.
  intros Hc Hsc Hfi. split; [|split].
  - intros r. by apply candidates_in_scope.
  - apply NoDup_candidates.
  - unfold resolve. destruct Hc as [cha Hcha]. rewrite Hcha, Hsc, Hfi.
    unfold resolve_scoped.
    destruct (filtered g fi (candidates g c sc)) as [|t ts] eqn:E; simpl;
      destruct sc; simpl; try done; by eexists.
Qed.

(** C3. Applying a filter keeps, in their order, exactly the candidates the
    filter describes: all of them for none; those with HP/Current equal to
    HP/Total for onlyHealthy; those alive for onlyAlive; those alive and
    below their HP/Total for onlyUnhealthy; those not alive for onlyDead;
    those whose party as a whole is not defeated for onlyUndefeated. *)
Theorem filtered_keeps (g : game) (fi : Action.filter) (cands : list ref) :
  filtered g fi cands `sublist_of` cands
  ∧ ∀ r cha, deref g r = Some cha →
      (r ∈ filtered g fi cands ↔ r ∈ cands ∧ kept g fi r cha).
Proof.
  split.
  - destruct fi; simpl; try apply sublist_filter. done.
  - intros r cha Hcha. unfold kept.
    destruct fi; simpl; rewrite ?list_elem_of_filter; unfold holds;
      rewrite ?Hcha; simpl.
    + tauto.
    + unfold healthy. rewrite Z.eqb_eq. tauto.
    + tauto.
    + unfold unhealthy. rewrite andb_true_iff, Z.ltb_lt. tauto.
    + rewrite negb_true_iff. tauto.
    + unfold defeated. split.
      * intros [Hd ?]. split; [done|].
        unfold deref in Hcha. destruct (parties g !! r.1) as [pa|]; [|done].
        by exists pa.
      * intros [? (pa & Hpa & Hd)]. rewrite Hpa. done.
Qed.

End Targets.

(** ** No eligible target *)

Section NoTargets.

Import Game Wording.

(** Against parties that are all defeated, nobody passes onlyUndefeated. *)
Lemma no_undefeated_enemy (g : game) (c : ref) :
  in_match g c →
  (∀ pi pa, pi ≠ c.1 → parties g !! pi = Some pa → Party.defeated pa = true) →
  filtered g Action.onlyUndefeated (candidates g c Action.enemy) = [].
Proof.
  intros Hc Hall. apply elem_of_nil_inv. intros r Hr. simpl in Hr.
  apply list_elem_of_filter in Hr as [Hd Hr].
  apply (candidates_in_scope g c Action.enemy r Hc) in Hr as [Hm Hne].
  apply deref_is_Some in Hm as (pa & Hpa & _).
  unfold defeated in Hd. rewrite Hpa in Hd. simpl in Hd.
  rewrite (Hall _ _ Hne Hpa) in Hd. done.
Qed.

(** C4. When nobody is left after filtering, target resolution returns no
    target set and has asked the interaction surface nothing; the pass
    through the menu loop that chose the action ends in a retry with the
    game as it was, nothing notified and nothing invoked, and the loop goes
    on to ask for the next label.  With scope enemy and filter
    onlyUndefeated against opposing parties that are all defeated, this is
    what happens. *)
Theorem no_eligible_targets (choose : chooser) (g : game) (c : ref) (s : string)
    (sc : Action.scope) (fi : Action.filter) :
  in_match g c →
  scope g c s = Some sc →
  filter_of g c s = Some fi →
  (filtered g fi (candidates g c sc) = [] →
     resolve choose g c s = (inr None, [])
     ∧ ∀ am res answers labels,
         s ≠ "Cancel" → find_action am s = None →
         menu_pass choose g c am res s = (Retry g res, [])
         ∧ menu_loop choose (s :: answers) g c am labels res
           = (let '(r, rest) := menu_loop choose answers g c am labels res in
              (r, QueryLabel c labels :: rest)))
  ∧ (sc = Action.enemy → fi = Action.onlyUndefeated →
     (∀ pi pa, pi ≠ c.1 → parties g !! pi = Some pa → Party.defeated pa = true) →
     filtered g fi (candidates g c sc) = []
     ∧ resolve choose g c s = (inr None, [])).
Proof.
  intros Hc Hsc Hfi.
  assert (filtered g fi (candidates g c sc) = [] →
          resolve choose g c s = (inr None, [])) as Hnone.
  { intros Hnil. unfold resolve. destruct Hc as [cha Hcha].
    rewrite Hcha, Hsc, Hfi. unfold resolve_scoped. by rewrite Hnil. }
  split.
  - intros Hnil. split; [by apply Hnone|].
    intros am res answers labels Hcancel Hfind.
    assert (menu_pass choose g c am res s = (Retry g res, [])) as Hpass.
    { unfold menu_pass. apply String.eqb_neq in Hcancel.
      rewrite Hcancel, Hfind, (Hnone Hnil). done. }
    split; [done|]. simpl. rewrite Hpass.
    by destruct (menu_loop choose answers g c am labels res).
  - intros -> -> Hall.
    assert (filtered g Action.onlyUndefeated (candidates g c Action.enemy) = [])
      as Hnil by by apply no_undefeated_enemy.
    split; [done|]. by apply Hnone.
Qed.

End NoTargets.

(** ** Turn order *)

Section TurnOrder.

Import Game.

Context {A : Type}.

Lemma swap_length (i j : nat) (l : list A) : length (swap i j l) = length l.
Proof.
  unfold swap. destruct (l !! i), (l !! j); try done.
  by rewrite !length_insert.
Qed.

(** Exchanging two positions rearranges the list. *)
Lemma swap_Permutation (i j : nat) (l : list A) : swap i j l ≡ₚ l.
Proof.
  unfold swap.
  destruct (l !! i) as [x|] eqn:Hi; [|done].
  destruct (l !! j) as [y|] eqn:Hj; [|done].
  apply Permutation_inj. split; [by rewrite !length_insert|].
  exists (λ k, if decide (k = i) then j else if decide (k = j) then i else k).
  split.
  - intros a b. repeat case_decide; intros; subst; congruence.
  - intros k. repeat case_decide; subst.
    + rewrite list_lookup_insert_eq; [done|].
      rewrite length_insert. by eapply lookup_lt_Some.
    + rewrite list_lookup_insert_ne by done.
      rewrite list_lookup_insert_eq; [done|]. by eapply lookup_lt_Some.
    + by rewrite !list_lookup_insert_ne.
Qed.

Lemma random_shuffle_from_Permutation (rand : nat → nat) (steps i : nat)
    (l : list A) :
  random_shuffle_from rand steps i l ≡ₚ l.
Proof.
  revert i l. induction steps as [|steps IH]; intros i l; simpl; [done|].
  rewrite IH. apply swap_Permutation.
Qed.

(** Whatever the draws, the shuffle returns a rearrangement. *)
Lemma random_shuffle_Permutation (rand : nat → nat) (l : list A) :
  random_shuffle rand l ≡ₚ l.
Proof. apply random_shuffle_from_Permutation. Qed.

Lemma swap_lookup (i j k : nat) (l : list A) :
  (i < length l)%nat → (j < length l)%nat →
  swap i j l !! k
  = l !! (if decide (k = i) then j else if decide (k = j) then i else k).
Proof.
  intros Hi Hj. unfold swap.
  destruct (lookup_lt_is_Some_2 l i Hi) as [x Hx].
  destruct (lookup_lt_is_Some_2 l j Hj) as [y Hy].
  rewrite Hx, Hy. repeat case_decide; subst.
  - rewrite list_lookup_insert_eq; [done|]. by rewrite length_insert.
  - rewrite list_lookup_insert_ne by done.
    by rewrite list_lookup_insert_eq.
  - by rewrite !list_lookup_insert_ne.
Qed.

Lemma swap_out_of_range (i j : nat) (l : list A) :
  (length l ≤ i)%nat ∨ (length l ≤ j)%nat → swap i j l = l.
Proof.
  intros H. unfold swap.
  destruct (l !! i) as [x|] eqn:Hx; [|done].
  destruct (l !! j) as [y|] eqn:Hy; [|done].
  apply lookup_lt_Some in Hx, Hy. lia.
Qed.

Lemma swap_swap (i j : nat) (l : list A) : swap i j (swap i j l) = l.
Proof.
  destruct (decide (i < length l ∧ j < length l)%nat) as [[Hi Hj]|Hout].
  - apply list_eq. intros k.
    rewrite swap_lookup by (by rewrite swap_length).
    rewrite swap_lookup by done.
    repeat case_decide; subst; congruence.
  - rewrite (swap_out_of_range i j l) by lia.
    apply swap_out_of_range. lia.
Qed.

Lemma swap_app_l (i j : nat) (m t : list A) :
  (i < length m)%nat → (j < length m)%nat →
  swap i j (m ++ t) = swap i j m ++ t.
Proof.
  intros Hi Hj. unfold swap. rewrite !lookup_app_l by done.
  destruct (m !! i) as [x|]; [|done]. destruct (m !! j) as [y|]; [|done].
  rewrite insert_app_l by done.
  rewrite insert_app_l by (by rewrite length_insert). done.
Qed.

Lemma random_shuffle_from_length (rand : nat → nat) (steps i : nat) (l : list A) :
  length (random_shuffle_from rand steps i l) = length l.
Proof.
  revert i l. induction steps as [|steps IH]; intros i l; simpl; [done|].
  by rewrite IH, swap_length.
Qed.

(** The steps that stay inside a prefix leave the rest alone. *)
Lemma random_shuffle_from_app (rand : nat → nat) (steps i : nat) (m t : list A) :
  (i + steps ≤ length m)%nat →
  random_shuffle_from rand steps i (m ++ t)
  = random_shuffle_from rand steps i m ++ t.
Proof.
  revert i m. induction steps as [|steps IH]; intros i m Hlen; simpl; [done|].
  assert (rand (i - 1) `mod` S i < S i)%nat by (apply Nat.mod_upper_bound; lia).
  rewrite swap_app_l by lia.
  apply IH. rewrite swap_length. lia.
Qed.

(** The last step, taken apart. *)
Lemma random_shuffle_from_last (rand : nat → nat) (steps i : nat) (l : list A) :
  random_shuffle_from rand (S steps) i l
  = swap (i + steps) (rand (i + steps - 1) `mod` S (i + steps))%nat
      (random_shuffle_from rand steps i l).
Proof.
  revert i l. induction steps as [|steps IH]; intros i l.
  - simpl. by rewrite Nat.add_0_r.
  - change (random_shuffle_from rand (S (S steps)) i l)
      with (random_shuffle_from rand (S steps) (S i)
              (swap i (rand (i - 1) `mod` S i)%nat l)).
    rewrite IH. simpl.
    by replace (i + S steps)%nat with (S (i + steps)) by lia.
Qed.

(** Only the draws that are made matter. *)
Lemma random_shuffle_from_ext (rand rand' : nat → nat) (steps i : nat)
    (l : list A) :
  (∀ k, (i - 1 ≤ k < i - 1 + steps)%nat → rand k = rand' k) →
  random_shuffle_from rand steps i l = random_shuffle_from rand' steps i l.
Proof.
  revert i l. induction steps as [|steps IH]; intros i l Hsame; simpl; [done|].
  rewrite (Hsame (i - 1)%nat) by lia.
  apply IH. intros k Hk. apply Hsame. lia.
Qed.

(** Every rearrangement is the outcome of the shuffle for some draws. *)
Lemma random_shuffle_reaches (l l' : list A) :
  l' ≡ₚ l → ∃ rand, random_shuffle rand l = l'.
Proof.
  revert l'. induction l as [|x m IH] using rev_ind; intros l' Hperm.
  - apply Permutation_nil_r in Hperm as ->. by exists id.
  - assert (x ∈ l') as Hx by (rewrite Hperm; set_solver).
    apply list_elem_of_lookup_1 in Hx as [j Hj].
    assert (length l' = S (length m)) as Hlen
      by (rewrite Hperm, length_app; simpl; lia).
    assert (j < S (length m))%nat as Hjlt
      by (apply lookup_lt_Some in Hj; lia).
    assert (swap (length m) j l' !! length m = Some x) as Hlast.
    { rewrite swap_lookup by lia. by rewrite decide_True. }
    assert (swap (length m) j l' = take (length m) (swap (length m) j l') ++ [x])
      as Hsplit.
    { rewrite <- (take_drop (length m) (swap (length m) j l')) at 1.
      f_equal. rewrite <- (take_drop (length m) (swap (length m) j l')) in Hlast.
      rewrite lookup_app_r in Hlast
        by (rewrite length_take, swap_length; lia).
      rewrite length_take, swap_length, Hlen in Hlast.
      replace (length m - length m `min` S (length m))%nat with 0%nat in Hlast by lia.
      assert (length (drop (length m) (swap (length m) j l')) = 1%nat) as Hone
        by (rewrite length_drop, swap_length; lia).
      destruct (drop (length m) (swap (length m) j l')) as [|y [|]]; try done.
      simpl in Hlast. congruence. }
    set (m' := take (length m) (swap (length m) j l')) in *.
    assert (m' ≡ₚ m) as Hm'.
    { apply (Permutation_app_inv_r [x]). rewrite <- Hsplit, swap_Permutation. done. }
    destruct (IH m' Hm') as [rand0 Hrand0].
    exists (λ k, if decide (k < length m - 1)%nat then rand0 k else j).
    unfold random_shuffle. rewrite length_app. simpl.
    replace (length m + 1 - 1)%nat with (length m) by lia.
    destruct (length m) as [|n] eqn:En.
    + (* a single element: nothing to do *)
      destruct m; [|done]. simpl.
      destruct l' as [|y [|]]; try done. simpl in Hj. destruct j; [|done].
      simpl in Hj. congruence.
    + rewrite random_shuffle_from_last.
      rewrite random_shuffle_from_app by lia.
      rewrite (random_shuffle_from_ext _ rand0 n 1 m).
      2:{ intros k Hk. rewrite decide_True; [done|]. lia. }
      assert (random_shuffle_from rand0 n 1 m = m') as ->.
      { unfold random_shuffle in Hrand0. rewrite En in Hrand0.
        by replace (S n - 1)%nat with n in Hrand0 by lia. }
      replace (1 + n - 1)%nat with n by lia.
      rewrite decide_False by lia.
      replace (1 + n)%nat with (S n) by lia.
      rewrite Nat.mod_small by lia.
      rewrite <- Hsplit. apply swap_swap.
Qed.

(** On a list without repetition the outcome tells the draws, as far as
    they are used. *)
Lemma random_shuffle_draws (rand rand' : nat → nat) (l : list A) :
  NoDup l →
  random_shuffle rand l = random_shuffle rand' l →
  ∀ i, (1 ≤ i < length l)%nat →
    (rand (i - 1) `mod` S i = rand' (i - 1) `mod` S i)%nat.
Proof.
  induction l as [|x m IH] using rev_ind; intros Hnd Hsame i Hi; [simpl in Hi; lia|].
  rewrite length_app in Hi. simpl in Hi.
  apply NoDup_app in Hnd as (Hm & Hx & _).
  unfold random_shuffle in Hsame. rewrite length_app in Hsame. simpl in Hsame.
  replace (length m + 1 - 1)%nat with (length m) in Hsame by lia.
  destruct (length m) as [|n] eqn:En; [lia|].
  rewrite !random_shuffle_from_last in Hsame.
  rewrite !random_shuffle_from_app in Hsame by lia.
  replace (1 + n - 1)%nat with n in Hsame by lia.
  replace (1 + n)%nat with (S n) in Hsame by lia.
  set (j := (rand n `mod` S (S n))%nat) in *.
  set (j' := (rand' n `mod` S (S n))%nat) in *.
  set (M := random_shuffle_from rand n 1 m) in *.
  set (M' := random_shuffle_from rand' n 1 m) in *.
  assert (length M = S n) as HM by (unfold M; by rewrite random_shuffle_from_length).
  assert (length M' = S n) as HM' by (unfold M'; by rewrite random_shuffle_from_length).
  assert (j < S (S n))%nat as Hj by (apply Nat.mod_upper_bound; lia).
  assert (j' < S (S n))%nat as Hj' by (apply Nat.mod_upper_bound; lia).
  assert (∀ (N : list A) k, length N = S n → (k < S (S n))%nat →
            swap (S n) k (N ++ [x]) !! k = Some x) as Hat.
  { intros N k HN Hk. rewrite swap_lookup by (rewrite length_app; simpl; lia).
    replace (if decide (k = S n) then k
             else if decide (k = k) then S n else k) with (S n)
      by (repeat case_decide; congruence).
    rewrite lookup_app_r by lia. by rewrite HN, Nat.sub_diag. }
  assert (j = j') as Hjj.
  { eapply (NoDup_lookup (swap (S n) j (M ++ [x])) j j' x).
    - rewrite swap_Permutation. unfold M.
      rewrite random_shuffle_from_Permutation.
      apply NoDup_app. split; [done|]. split; [done|]. apply NoDup_singleton.
    - by apply Hat.
    - rewrite Hsame. by apply Hat. }
  destruct (decide (i = S n)) as [->|Hne].
  - replace (S n - 1)%nat with n by lia. done.
  - apply IH; [done| |lia].
    unfold random_shuffle. rewrite En. replace (S n - 1)%nat with n by lia.
    rewrite <- Hjj in Hsame.
    apply (f_equal (swap (S n) j)) in Hsame. rewrite !swap_swap in Hsame.
    by apply app_inv_tail in Hsame.
Qed.

End TurnOrder.

Section NextCharacter.

Import Game.

Lemma turnOrder_Permutation (rand : nat → nat) (g : game) :
  turnOrder rand g ≡ₚ filter (λ r, able g r = true) (all_characters g).
Proof. apply random_shuffle_Permutation. Qed.

Lemma able_deref (g : game) (r : ref) :
  able g r = true ↔ ∃ cha, deref g r = Some cha ∧ Character.able cha = true.
Proof.
  unfold able. destruct (deref g r) as [cha|]; simpl.
  - split; [eauto|]. by intros (? & [= <-] & ?).
  - split; [done|]. by intros (? & ? & _).
Qed.

Lemma elem_of_turnOrder (rand : nat → nat) (g : game) (r : ref) :
  r ∈ turnOrder rand g ↔
  ∃ cha, deref g r = Some cha ∧ Character.able cha = true.
Proof.
  rewrite turnOrder_Permutation, list_elem_of_filter, elem_of_all_characters.
  rewrite able_deref. split; [tauto|].
  intros (cha & Hcha & Hable). split; [|by exists cha]. eauto.
Qed.

(** C5. [turnOrder()] returns the able characters of all parties, each
    once, in an order the draws decide.  Every order of them is returned
    for some draws, and the order tells the draws as far as the shuffle
    uses them: equally likely draws make the orders equally likely.
    [nextCharacter()] is the first of the sequence; and the sequence is
    computed from the parties on each call: the game keeps no turn queue. *)
Theorem turnOrder_shuffles_able (rand : nat → nat) (g : game) :
  turnOrder rand g ≡ₚ filter (λ r, able g r = true) (all_characters g)
  ∧ NoDup (turnOrder rand g)
  ∧ (∀ r, r ∈ turnOrder rand g ↔
          ∃ cha, deref g r = Some cha ∧ Character.able cha = true)
  ∧ (∀ order, order ≡ₚ turnOrder rand g →
       ∃ rand', turnOrder rand' g = order)
  ∧ (∀ rand', turnOrder rand' g = turnOrder rand g →
       ∀ i, (1 ≤ i < length (turnOrder rand g))%nat →
         (rand' (i - 1) `mod` S i = rand (i - 1) `mod` S i)%nat)
  ∧ nextCharacter rand g = head (turnOrder rand g)
  ∧ (∀ g' : game, parties g' = parties g →
       turnOrder rand g' = turnOrder rand g).
Proof.
  assert (NoDup (filter (λ r, able g r = true) (all_characters g))) as Hnd
    by apply NoDup_filter, NoDup_all_characters.
  split; [apply turnOrder_Permutation|].
  split; [|split; [|split; [|split; [|split]]]].
  - by rewrite turnOrder_Permutation.
  - apply elem_of_turnOrder.
  - intros order Horder. apply random_shuffle_reaches.
    by rewrite Horder, turnOrder_Permutation.
  - intros rand' Hsame i Hi. rewrite turnOrder_Permutation in Hi.
    by eapply random_shuffle_draws.
  - unfold nextCharacter. by rewrite head_lookup.
  - intros g' Hp. unfold turnOrder, all_characters, able, deref.
    by rewrite Hp.
Qed.

(** With an able character in the match, the first of the turn order is
    one. *)
Lemma nextCharacter_able (rand : nat → nat) (g : game) (r : ref)
    (cha : character) :
  deref g r = Some cha → Character.able cha = true →
  ∃ r' cha', nextCharacter rand g = Some r'
             ∧ deref g r' = Some cha' ∧ Character.able cha' = true.
Proof.
  intros Hcha Hable.
  assert (r ∈ turnOrder rand g) as Hin by (apply elem_of_turnOrder; eauto).
  unfold nextCharacter.
  destruct (turnOrder rand g) as [|r0 rest] eqn:E; [by apply elem_of_nil in Hin|].
  assert (r0 ∈ turnOrder rand g) as Hin0 by (rewrite E; left).
  apply elem_of_turnOrder in Hin0 as (cha0 & ? & ?).
  by exists r0, cha0.
Qed.

(** C9. [nextCharacter()] has a value only when some character of the match
    is able: then it is an able character; when none is able the turn
    order is empty and there is no element 0 to return. *)
Theorem nextCharacter_needs_able (rand : nat → nat) (g : game) :
  ((∃ r cha, deref g r = Some cha ∧ Character.able cha = true) →
   ∃ r cha, nextCharacter rand g = Some r
            ∧ deref g r = Some cha ∧ Character.able cha = true)
  ∧ ((∀ r cha, deref g r = Some cha → Character.able cha = false) →
     turnOrder rand g = [] ∧ nextCharacter rand g = None).
Proof.
  split.
  - intros (r & cha & Hcha & Hable). by eapply nextCharacter_able.
  - intros Hnone.
    assert (turnOrder rand g = []) as E.
    { apply elem_of_nil_inv. intros r (cha & Hcha & Hable)%elem_of_turnOrder.
      rewrite (Hnone r cha Hcha) in Hable. done. }
    split; [done|]. unfold nextCharacter. by rewrite E.
Qed.

(** Where the outer loop calls [doCombat()], with at least one party in the
    game, somebody is able: no party is defeated, so the first one has a
    member alive. *)
Lemma combat_has_actor (rand : nat → nat) (g : game) :
  state_of g = combat → parties g ≠ [] →
  ∃ r cha, nextCharacter rand g = Some r
           ∧ deref g r = Some cha ∧ Character.able cha = true.
Proof.
  intros Hstate Hparties.
  destruct (parties g) as [|p ps] eqn:Hp; [done|].
  assert (Party.defeated p = false) as Hup.
  { unfold state_of in Hstate. rewrite Hp in Hstate.
    destruct (willExit g); [done|]. simpl in Hstate.
    destruct ps; [done|]. simpl in Hstate.
    destruct (Party.defeated p); [|done].
    by destruct (length ps). }
  unfold Party.defeated in Hup.
  assert (∃ ci cha, Party.members p !! ci = Some cha
                    ∧ Character.alive cha = true) as (ci & cha & Hci & Halive).
  { clear Hp. induction (Party.members p) as [|c cs IH]; [done|].
    simpl in Hup. apply andb_false_iff in Hup as [Hc|Hcs].
    - exists 0%nat, c. split; [done|]. by apply negb_false_iff.
    - destruct (IH Hcs) as (ci & cha & ? & ?). by exists (S ci), cha. }
  apply (nextCharacter_able rand g (0%nat, ci) cha); [|done].
  unfold deref. by rewrite Hp.
Qed.

(** Where the outer loop calls [doMenu()] there need not be: a single party
    with nobody alive is in the menu phase. *)
Lemma menu_without_actor :
  state_of Fixture.fallen = menu
  ∧ nextCharacter Fixture.draws Fixture.fallen = None.
Proof. split; reflexivity. Qed.

End NextCharacter.

(** ** Leaving *)

Section Exit.

Import Game Engine.

Lemma with_parties_willExit (ps : list party) (g : game) :
  willExit (with_parties ps g) = willExit g.
Proof. done. Qed.

Lemma generateParties_willExit (generate : factory) (g : game) :
  willExit (generateParties generate g).1 = willExit g.
Proof.
  unfold generateParties. by destruct (generate_loop _ _ _ _).
Qed.

Lemma simple_doVictory_willExit (g : game) :
  willExit (Simple.doVictory g).1 = willExit g.
Proof.
  unfold Simple.doVictory. simpl.
  destruct (parties g) as [|p [|d rest]]; try done.
  by destruct (foldl Simple.loot _ _).
Qed.

Lemma invoke_willExit (g : game) (actor : ref) (s : string) (targets : list ref) :
  willExit (invoke g actor s targets).1 = willExit g.
Proof.
  unfold invoke. destruct (deref g actor) as [cha|]; [|done].
  destruct (Character.lookup cha s) as [d|]; [|done].
  destruct (forallb _ _); [|done].
  by destruct (Action.apply d _ _ _).
Qed.

Lemma keeps_exit_quit : keeps_exit quit.
Proof. by intros retry g c _. Qed.

Lemma keeps_exit_ignore : keeps_exit ignore.
Proof. by intros retry g c H. Qed.

Lemma keeps_exit_inspect : keeps_exit inspect.
Proof. by intros retry g c H. Qed.

Lemma keeps_exit_fight (generate : factory) : keeps_exit (Simple.fight generate).
Proof.
  intros retry g c H. unfold Simple.fight. simpl.
  by rewrite generateParties_willExit.
Qed.

Lemma bind_action_Forall (P : string * handler → Prop) (k : string)
    (h : handler) (m : actionMap) :
  P (k, h) → Forall P m → Forall P (bind_action k h m).
Proof.
  intros Hkh. induction m as [|[k' h'] m IH]; intros Hm; simpl.
  - by constructor.
  - apply Forall_cons in Hm as [Hhd Htl].
    destruct (String.compare k k'); repeat constructor; auto.
Qed.

Lemma actions_keep_exit (g : game) (c : ref) :
  Forall (λ b, keeps_exit b.2) (actions g c).
Proof.
  unfold actions. destruct (negb (useAI g c)); [|constructor].
  apply bind_action_Forall; [apply keeps_exit_ignore|].
  apply bind_action_Forall; [apply keeps_exit_quit|constructor].
Qed.

Lemma simple_actions_keep_exit (generate : factory) (g : game) (c : ref) :
  Forall (λ b, keeps_exit b.2) (Simple.actions generate g c).
Proof.
  unfold Simple.actions.
  assert (Forall (λ b, keeps_exit b.2)
            match state_of g with
            | menu => bind_action "Fight" (Simple.fight generate) (actions g c)
            | _ => actions g c
            end) as H.
  { destruct (state_of g); try apply actions_keep_exit.
    apply bind_action_Forall; [apply keeps_exit_fight|apply actions_keep_exit]. }
  destruct (negb (useAI g c)); [|done].
  apply bind_action_Forall; [apply keeps_exit_inspect|done].
Qed.

Lemma find_action_Forall (P : string * handler → Prop) (m : actionMap)
    (s : string) (h : handler) :
  Forall P m → find_action m s = Some h → ∃ k, P (k, h).
Proof.
  intros Hm Hfind. unfold find_action in Hfind.
  destruct (list_find _ m) as [[i [k h']]|] eqn:E; [|done].
  simpl in Hfind. injection Hfind as ->.
  apply list_find_Some in E as (Hi & _ & _).
  exists k. eapply Forall_lookup_1; done.
Qed.

Lemma menu_pass_willExit (choose : chooser) (g : game) (target : ref)
    (am : actionMap) (res s : string) :
  Forall (λ b, keeps_exit b.2) am →
  willExit g = true →
  match (menu_pass choose g target am res s).1 with
  | Retry g' _ | Return g' _ => willExit g' = true
  end.
Proof.
  intros Ham Hexit. unfold menu_pass.
  destruct (String.eqb s "Cancel"); [done|].
  destruct (find_action am s) as [h|] eqn:Hfind.
  - destruct (find_action_Forall _ _ _ _ Ham Hfind) as [k Hk].
    specialize (Hk false g target Hexit). simpl in Hk.
    destruct (h false g target) as [[retry g'] r]. simpl in Hk.
    by destruct retry.
  - destruct (resolve choose g target s) as [[e|[just|]] asked]; try done.
    destruct (length just <? 1)%nat; [done|].
    pose proof (invoke_willExit g target s just) as Hinv.
    destruct (invoke g target s just) as [g' r]. simpl in *. congruence.
Qed.

Lemma menu_loop_willExit (choose : chooser) (answers : list string) (g : game)
    (target : ref) (am : actionMap) (labels : list string) (res : string)
    (g' : game) (r : error + string) (told : list event) :
  Forall (λ b, keeps_exit b.2) am →
  willExit g = true →
  menu_loop choose answers g target am labels res = (Some (g', r), told) →
  willExit g' = true.
Proof.
  intros Ham. revert g res told.
  induction answers as [|s answers IH]; intros g res told Hexit Hloop; [done|].
  simpl in Hloop.
  pose proof (menu_pass_willExit choose g target am res s Ham Hexit) as Hpass.
  destruct (menu_pass choose g target am res s) as [[g1 res1|g1 r1] told1];
    simpl in Hpass.
  - destruct (menu_loop choose answers g1 target am labels res1)
      as [r2 rest] eqn:E.
    injection Hloop as -> _. by eapply IH.
  - injection Hloop as -> _ _. done.
Qed.

Lemma doMenuAction_willExit (acts : game → ref → actionMap) (choose : chooser)
    (rand : nat → nat) (answers : list string) (g : game) (allow : bool)
    (g' : game) (r : error + string) (told : list event) :
  (∀ g c, Forall (λ b, keeps_exit b.2) (acts g c)) →
  willExit g = true →
  doMenuAction acts choose rand answers g allow = (Some (g', r), told) →
  willExit g' = true.
Proof.
  intros Hacts Hexit. unfold doMenuAction, resolve_menu.
  destruct (nextCharacter rand g) as [c|].
  - intros Hloop. eapply menu_loop_willExit; [apply Hacts|done|done].
  - by intros [= <- _ _].
Qed.

(** No operation clears the exit flag. *)
Lemma step_willExit (g g' : game) :
  step g g' → willExit g = true → willExit g' = true.
Proof.
  intros Hstep Hexit.
  destruct Hstep as [retry g c|retry g c|retry g c|generate retry g c
                    |generate g|g|g|g|g actor s targets|attrs g
                    |choose rand answers g allow g' r told Hmenu
                    |generate choose rand answers g allow g' r told Hmenu].
  - done.
  - done.
  - done.
  - by apply keeps_exit_fight.
  - by rewrite generateParties_willExit.
  - done.
  - by rewrite simple_doVictory_willExit.
  - done.
  - by rewrite invoke_willExit.
  - done.
  - eapply doMenuAction_willExit; [apply actions_keep_exit|done|done].
  - eapply doMenuAction_willExit; [apply simple_actions_keep_exit|done|done].
Qed.

(** C10. Exit is absorbing.  The handler bound to Quit/Yes sets the exit
    flag; with the flag set [state()] answers exit whatever the parties
    are; and no sequence of operations of the game brings the flag back,
    so [state()] answers exit ever after. *)
Theorem exit_is_absorbing :
  (∀ g c, useAI g c = false → find_action (actions g c) "Quit/Yes" = Some quit)
  ∧ (∀ retry g c, willExit (quit retry g c).1.2 = true)
  ∧ (∀ g, willExit g = true → state_of g = exit)
  ∧ (∀ g g', willExit g = true → rtc step g g' →
       willExit g' = true ∧ state_of g' = exit).
Proof.
  assert (∀ g, willExit g = true → state_of g = exit) as Hstate.
  { intros g H. unfold state_of. by rewrite H. }
  split; [|split; [|split]]; try done.
  - intros g c Hai. unfold actions. rewrite Hai. reflexivity.
  - intros g g' Hexit Hrtc.
    assert (willExit g' = true) as H'.
    { induction Hrtc as [|g1 g2 g3 Hstep _ IH]; [done|].
      apply IH. by eapply step_willExit. }
    split; [done|]. by apply Hstate.
Qed.

End Exit.

(** ** Attributes *)

Section Attributes.

Import Object.

Lemma stored_set_eq (o : object) (k : string) (v : Z) :
  stored (set o k v) k = v.
Proof. unfold stored, set. simpl. by rewrite lookup_insert_eq. Qed.

Lemma stored_set_ne (o : object) (k k' : string) (v : Z) :
  k ≠ k' → stored (set o k v) k' = stored o k'.
Proof. intros. unfold stored, set. simpl. by rewrite lookup_insert_ne. Qed.

(** A key without a function attribute reads its stored value. *)
Lemma get_fuel_stored (n : nat) (o : object) (k : string) :
  function o !! k = None → get_fuel n o k = stored o k.
Proof. intros H. destruct n; simpl; by rewrite H. Qed.

Lemma get_stored (o : object) (k : string) :
  function o !! k = None → get o k = stored o k.
Proof. apply get_fuel_stored. Qed.

End Attributes.

(** ** Invoking an action *)

Section Invoke.

Import Game.

Lemma deref_update_eq (g : game) (r : ref) (f : character → character) :
  deref (update g r f) r = f <$> deref g r.
Proof.
  unfold deref, update. simpl. rewrite list_lookup_alter_eq.
  destruct (parties g !! r.1) as [pa|]; simpl; [|done].
  by rewrite list_lookup_alter_eq.
Qed.

Lemma deref_update_ne (g : game) (r r' : ref) (f : character → character) :
  r ≠ r' → deref (update g r f) r' = deref g r'.
Proof.
  intros Hne. unfold deref, update. simpl.
  destruct (decide (r.1 = r'.1)) as [E|E].
  - rewrite <- E, list_lookup_alter_eq.
    destruct (parties g !! r.1) as [pa|]; simpl; [|done].
    rewrite list_lookup_alter_ne; [done|].
    intros E'. apply Hne. destruct r, r'; simpl in *; congruence.
  - by rewrite list_lookup_alter_ne.
Qed.

(** The heap holds the objects of the characters of the match. *)
Lemma heap_of_lookup (g : game) (r : ref) (o : object) :
  heap_of g !! r = Some o → Character.base <$> deref g r = Some o.
Proof.
  intros Hr. unfold heap_of in Hr. apply elem_of_list_to_map_2 in Hr.
  apply list_elem_of_omap in Hr as (r' & _ & Hsome).
  destruct (deref g r') as [cha|] eqn:E; [|done].
  simpl in Hsome. injection Hsome as -> <-. by rewrite E.
Qed.

Lemma affordable_all (o : object) (costs : list Resource.cost) :
  forallb (affordable o) costs = true ↔
  ∀ c, c ∈ costs → Resource.amount c ≤ Object.get o (Resource.resource c).
Proof.
  induction costs as [|c costs IH]; simpl.
  - split; [|done]. by intros _ c Hc%elem_of_nil.
  - rewrite andb_true_iff, IH. unfold affordable at 1. rewrite Z.leb_le.
    split.
    + intros [Hc Hrest] c' [->|Hin]%elem_of_cons; auto.
    + intros Hall. split; [apply Hall; left|].
      intros c' Hin. apply Hall. by right.
Qed.

Lemma omap_tagged_sublist {A : Type} (f : ref → option (ref * A))
    (l : list ref) :
  (∀ r x, f r = Some x → x.1 = r) → (omap f l).*1 `sublist_of` l.
Proof.
  intros Htag. induction l as [|r l IH]; simpl; [done|].
  destruct (f r) as [x|] eqn:E; simpl.
  - rewrite (Htag r x E). by apply sublist_skip.
  - by apply sublist_cons.
Qed.

(** The heap an effect is given holds exactly the objects of the characters
    of the match, each under its pointer. *)
Lemma heap_of_lookup_eq (g : game) (r : ref) :
  heap_of g !! r = Character.base <$> deref g r.
Proof.
  unfold heap_of.
  set (f := λ r : ref, (λ cha, (r, Character.base cha)) <$> deref g r).
  assert (∀ r x, f r = Some x → x.1 = r) as Htag.
  { intros r' x. unfold f. destruct (deref g r'); [|done]. by intros [= <-]. }
  destruct (deref g r) as [cha|] eqn:E; simpl.
  - apply elem_of_list_to_map_1.
    + apply (sublist_NoDup _ (all_characters g));
        [apply NoDup_all_characters|by apply omap_tagged_sublist].
    + apply list_elem_of_omap. exists r. split.
      * apply elem_of_all_characters. by rewrite E.
      * unfold f. by rewrite E.
  - apply not_elem_of_list_to_map_1. intros Hin.
    apply list_elem_of_fmap in Hin as ([r' o] & -> & Hin).
    apply list_elem_of_omap in Hin as (r'' & _ & Hf).
    pose proof (Htag _ _ Hf) as Hr. simpl in Hr. subst r''.
    unfold f in Hf. simpl in E. by rewrite E in Hf.
Qed.

(** After the effect each character holds the object the effect left under
    its pointer, and the one it had if the effect left none. *)
Lemma deref_store (h : Action.heap) (g : game) (r : ref) :
  deref (store h g) r
  = (λ cha, set_base (default (Character.base cha) (h !! r)) cha)
      <$> deref g r.
Proof.
  unfold deref, store. simpl. rewrite list_lookup_imap.
  destruct (parties g !! r.1) as [pa|]; simpl; [|done].
  rewrite list_lookup_imap. by destruct r.
Qed.

Lemma inventory_store (h : Action.heap) (g : game) (pi : nat) :
  Party.inventory <$> parties (store h g) !! pi
  = Party.inventory <$> parties g !! pi.
Proof.
  unfold store. simpl. rewrite list_lookup_imap.
  by destruct (parties g !! pi).
Qed.

Lemma inventory_update (g : game) (r : ref) (f : character → character)
    (pi : nat) :
  Party.inventory <$> parties (update g r f) !! pi
  = Party.inventory <$> parties g !! pi.
Proof.
  unfold update. simpl. destruct (decide (r.1 = pi)) as [<-|Hne].
  - rewrite list_lookup_alter_eq. by destruct (parties g !! r.1).
  - by rewrite list_lookup_alter_ne.
Qed.

(** Deducting the costs takes from each attribute what the costs on it add
    up to, and changes nothing else of the object. *)
Lemma foldl_deduct (costs : list Resource.cost) (o : object) :
  Object.name (foldl deduct o costs) = Object.name o
  ∧ Object.function (foldl deduct o costs) = Object.function o
  ∧ ∀ k, Object.stored (foldl deduct o costs) k
         = Object.stored o k - Frame.charged costs k.
Proof.
  revert o. induction costs as [|c costs IH]; intros o; simpl.
  - repeat split. intros k. lia.
  - destruct (IH (deduct o c)) as (Hname & Hfun & Hstored).
    split; [by rewrite Hname|]. split; [by rewrite Hfun|].
    intros k. rewrite Hstored. unfold deduct, Object.add, Object.stored.
    simpl. case_decide as Hk.
    + rewrite Hk, lookup_insert_eq. simpl. lia.
    + rewrite lookup_insert_ne by done. lia.
Qed.

(** C7. Invoking a bound action first checks every cost against the
    invoking character's attribute.  If one cost is not affordable the
    result is InsufficientResource and the game is returned as it was: no
    cost deducted, no effect run.  If all are affordable, the effect
    function is run with the character as its source on the objects of the
    match, of which the character's own has, attribute by attribute, what
    the costs on that attribute add up to taken off its stored value and
    is otherwise as it was, and every other object is untouched; afterwards
    each character holds the object the effect left under its pointer (the
    one it was given, if the effect left none) with its equipment and
    actions as before, no character comes or goes, and inventories,
    attributes of the game and the exit flag are as before; the effect's
    description is returned. *)
Theorem invoke_checks_costs (g : game) (actor : ref) (cha : character)
    (s : string) (d : Action.descriptor) (targets : list ref) :
  deref g actor = Some cha →
  Character.lookup cha s = Some d →
  ((∃ c, c ∈ Action.cost d
         ∧ Character.get cha (Resource.resource c) < Resource.amount c) →
   invoke g actor s targets = (g, inl InsufficientResource))
  ∧ ((∀ c, c ∈ Action.cost d →
           Resource.amount c ≤ Character.get cha (Resource.resource c)) →
     ∃ (h1 h2 : Action.heap) (paid : object) (description : string)
       (g' : game),
       invoke g actor s targets = (g', inr description)
       ∧ Action.apply d [actor] targets h1 = (h2, description)
       ∧ h1 !! actor = Some paid
       ∧ Object.name paid = Object.name (Character.base cha)
       ∧ Object.function paid = Object.function (Character.base cha)
       ∧ (∀ k, Object.stored paid k
               = Object.stored (Character.base cha) k
                 - Frame.charged (Action.cost d) k)
       ∧ (∀ r, r ≠ actor → h1 !! r = Character.base <$> deref g r)
       ∧ (∀ r c0, deref g r = Some c0 →
            ∃ o, (h2 !! r = Some o ∨ h2 !! r = None ∧ h1 !! r = Some o)
                 ∧ deref g' r
                   = Some (Character.mk o (Character.equipment c0)
                             (Character.actions c0)))
       ∧ (∀ r, deref g r = None → deref g' r = None)
       ∧ (∀ pi, Party.inventory <$> parties g' !! pi
                = Party.inventory <$> parties g !! pi)
       ∧ attribute g' = attribute g
       ∧ willExit g' = willExit g).
Proof.
  intros Hcha Hd. split.
  - intros (c & Hin & Hlt). unfold invoke. rewrite Hcha, Hd.
    destruct (forallb _ _) eqn:E; [|done].
    pose proof (proj1 (affordable_all _ _) E c Hin) as Hle.
    unfold Character.get in Hlt. lia.
  - intros Hall.
    set (pay := λ c : character,
           set_base (foldl deduct (Character.base c) (Action.cost d)) c).
    set (g1 := update g actor pay).
    destruct (Action.apply d [actor] targets (heap_of g1))
      as [h2 description] eqn:Happly.
    exists (heap_of g1), h2,
      (foldl deduct (Character.base cha) (Action.cost d)), description,
      (store h2 g1).
    destruct (foldl_deduct (Action.cost d) (Character.base cha))
      as (Hname & Hfun & Hstored).
    assert (∀ r, deref g1 r
                 = if decide (r = actor) then Some (pay cha) else deref g r)
      as Hg1.
    { intros r. unfold g1. case_decide as Hr.
      - subst r. by rewrite deref_update_eq, Hcha.
      - by apply deref_update_ne. }
    split.
    { unfold invoke. rewrite Hcha, Hd.
      assert (forallb (affordable (Character.base cha)) (Action.cost d) = true)
        as -> by by apply affordable_all.
      fold pay. fold g1. by rewrite Happly. }
    split; [done|].
    split. { rewrite heap_of_lookup_eq, Hg1. by rewrite decide_True. }
    split; [done|]. split; [done|]. split; [done|].
    split.
    { intros r Hne. rewrite heap_of_lookup_eq, Hg1. by rewrite decide_False. }
    split.
    { intros r c0 Hr. rewrite deref_store, heap_of_lookup_eq, Hg1.
      case_decide as Hactor.
      - subst r. rewrite Hcha in Hr. injection Hr as <-. simpl.
        destruct (h2 !! actor) as [o|]; simpl.
        + exists o. split; [by left|done].
        + exists (foldl deduct (Character.base cha) (Action.cost d)).
          split; [by right|done].
      - rewrite Hr. simpl. destruct (h2 !! r) as [o|]; simpl.
        + exists o. split; [by left|done].
        + exists (Character.base c0). split; [by right|]. by destruct c0. }
    split.
    { intros r Hr. rewrite deref_store, Hg1. case_decide as Hactor.
      - subst r. by rewrite Hcha in Hr.
      - by rewrite Hr. }
    split.
    { intros pi. unfold g1. by rewrite inventory_store, inventory_update. }
    done.
Qed.

End Invoke.

(** ** Victory *)

Section Victory.

Import Game Wording.

Lemma foldl_loot (cs : list character) (acc : list item * Z) :
  foldl Simple.loot acc cs
  = (acc.1 ++ equipment_of cs, acc.2 + experience_sum cs).
Proof.
  revert acc. induction cs as [|c cs IH]; intros [inv xp]; simpl.
  - unfold equipment_of. simpl. by rewrite app_nil_r, Z.add_0_r.
  - rewrite IH. unfold equipment_of. simpl.
    f_equal; [by rewrite <- app_assoc|lia].
Qed.

(** Within the range of a [long] and with somebody to share it, the reward
    is the quotient, or 1 if that is 0. *)
Lemma reward_max (xp : Z) (size : nat) :
  0 ≤ xp < 2 ^ 63 → (0 < size)%nat →
  Simple.reward xp size = Z.max 1 (xp / Z.of_nat size).
Proof.
  intros Hxp Hsize. unfold Simple.reward, to_size_t, to_long.
  rewrite (Z.mod_small xp) by lia.
  assert (0 ≤ xp / Z.of_nat size ≤ xp) as Hq.
  { split; [apply Z.div_pos; lia|]. apply Z.div_le_upper_bound; [lia|]. nia. }
  rewrite (Z.mod_small (xp / Z.of_nat size)) by lia.
  destruct (Z.ltb_spec (xp / Z.of_nat size) (2 ^ 63)); [|lia].
  destruct (Z.eqb_spec (xp / Z.of_nat size) 0); lia.
Qed.

(** With two parties, victory is: the second is defeated, the first not. *)
Lemma victory_two_parties (g : game) (p d : party) :
  parties g = [p; d] → state_of g = victory →
  Party.defeated p = false ∧ Party.defeated d = true.
Proof.
  intros Hp. unfold state_of. rewrite Hp. simpl.
  destruct (willExit g); [done|].
  destruct (Party.defeated p); [done|]. by destruct (Party.defeated d).
Qed.

Lemma get_add_experience (c : character) (xp : Z) :
  Object.function (Character.base c) !! "Experience" = None →
  Character.get (Character.add c "Experience" xp) "Experience"
  = Character.get c "Experience" + xp.
Proof.
  intros H. unfold Character.get, Character.add. simpl.
  rewrite !get_stored by done. unfold Object.add. by rewrite stored_set_eq.
Qed.

(** C6, amended.  In the victory state with exactly two parties, where the
    Experience of the defeated party adds up to a non-negative [long]:
    [doVictory()] leaves party 0 alone in the game; its inventory is its
    old one, then the defeated party's inventory, then the equipment of
    every defeated character; each of its members has gained the reward
    max(1, sum / size of party 0) in Experience; and with a single member
    in party 0 the reward is max(1, sum). *)
Theorem doVictory_two_parties (g : game) (p d : party) :
  parties g = [p; d] →
  state_of g = victory →
  0 ≤ experience_sum (Party.members d) < 2 ^ 63 →
  let xp := Z.max 1 (experience_sum (Party.members d)
                       / Z.of_nat (length (Party.members p))) in
  Party.defeated d = true
  ∧ Party.defeated p = false
  ∧ parties (Simple.doVictory g).1
    = [Party.mk ((λ c, Character.add c "Experience" xp) <$> Party.members p)
         (Party.inventory p ++ Party.inventory d
          ++ equipment_of (Party.members d))]
  ∧ (∀ c, c ∈ Party.members p →
          Object.function (Character.base c) !! "Experience" = None →
          Character.get (Character.add c "Experience" xp) "Experience"
          = Character.get c "Experience" + xp)
  ∧ (length (Party.members p) = 1%nat →
     xp = Z.max 1 (experience_sum (Party.members d))).
Proof.
  intros Hp Hstate Hsum xp.
  destruct (victory_two_parties g p d Hp Hstate) as [Hup Hdown].
  assert (0 < length (Party.members p))%nat as Hsize.
  { unfold Party.defeated in Hup. destruct (Party.members p); [done|simpl; lia]. }
  split; [done|]. split; [done|]. split; [|split].
  - unfold Simple.doVictory. rewrite Hp, foldl_loot. simpl.
    rewrite reward_max by done. by rewrite <- app_assoc.
  - intros c _ Hfun. by apply get_add_experience.
  - intros Hone. unfold xp. rewrite Hone. by rewrite Z.div_1_r.
Qed.

End Victory.

(** ** The theorems at work on the fixtures *)

Section Runs.

Import Game Wording Engine Fixture.

Lemma state_is_state_spec_witness :
  state_of wiped = defeat
  ∧ (∀ g' : game, willExit g' = willExit wiped → parties g' = parties wiped →
       state_of g' = state_of wiped).
Proof.
  destruct (state_is_state_spec wiped) as [Hspec Hsame].
  split; [rewrite Hspec; reflexivity|exact Hsame].
Defined.

Lemma resolve_by_scope_witness :
  in_match duel (0, 0)%nat
  ∧ scope duel (0, 0)%nat "Skill/Heal" = Some Action.ally
  ∧ filter_of duel (0, 0)%nat "Skill/Heal" = Some Action.onlyUnhealthy
  ∧ (∀ r, r ∈ candidates duel (0, 0)%nat Action.ally
          ↔ in_scope duel (0, 0)%nat Action.ally r)
  ∧ resolve first_candidate duel (0, 0)%nat "Skill/Heal"
    = (inr (Some [(0, 1)%nat]), [QueryTarget (0, 0)%nat [(0, 1)%nat]]).
Proof.
  assert (in_match duel (0, 0)%nat) as Hin by (by eexists).
  destruct (resolve_by_scope first_candidate duel (0, 0)%nat "Skill/Heal"
              Action.ally Action.onlyUnhealthy Hin eq_refl eq_refl)
    as (Hscope & _ & Hresolve).
  split; [exact Hin|]. split; [reflexivity|]. split; [reflexivity|].
  split; [exact Hscope|]. simpl in Hresolve. rewrite Hresolve; [reflexivity|].
  vm_compute. discriminate.
Defined.

Lemma filtered_keeps_witness :
  deref duel (0, 1)%nat = Some (fighter "Bob" 30 1 3)
  ∧ ((0, 1)%nat ∈ filtered duel Action.onlyUnhealthy (all_characters duel)
     ↔ (0, 1)%nat ∈ all_characters duel
       ∧ kept duel Action.onlyUnhealthy (0, 1)%nat (fighter "Bob" 30 1 3)).
Proof.
  split; [reflexivity|].
  exact (proj2 (filtered_keeps duel Action.onlyUnhealthy (all_characters duel))
           (0, 1)%nat (fighter "Bob" 30 1 3) eq_refl).
Defined.

Lemma no_eligible_targets_witness :
  in_match won (0, 0)%nat
  ∧ scope won (0, 0)%nat "Attack" = Some Action.enemy
  ∧ filter_of won (0, 0)%nat "Attack" = Some Action.onlyUndefeated
  ∧ filtered won Action.onlyUndefeated (candidates won (0, 0)%nat Action.enemy) = []
  ∧ resolve first_candidate won (0, 0)%nat "Attack" = (inr None, [])
  ∧ menu_pass first_candidate won (0, 0)%nat (actions won (0, 0)%nat) "" "Attack"
    = (Retry won "", []).
Proof.
  assert (in_match won (0, 0)%nat) as Hin by (by eexists).
  destruct (no_eligible_targets first_candidate won (0, 0)%nat "Attack"
              Action.enemy Action.onlyUndefeated Hin eq_refl eq_refl)
    as [Hempty Hdown].
  assert (∀ pi pa, pi ≠ 0%nat → parties won !! pi = Some pa →
                   Party.defeated pa = true) as Hall.
  { intros [|[|pi]] pa Hne Hpa; [done| |done].
    injection Hpa as <-. reflexivity. }
  destruct (Hdown eq_refl eq_refl Hall) as [Hnil Hnone].
  destruct (Hempty Hnil) as [_ Hloop].
  destruct (Hloop (actions won (0, 0)%nat) "" [] [])
    as [Hpass _]; [discriminate|reflexivity|].
  repeat split; try reflexivity; assumption.
Defined.

Lemma turnOrder_shuffles_able_witness :
  turnOrder draws duel ≡ₚ [(0, 0)%nat; (0, 1)%nat; (1, 0)%nat]
  ∧ nextCharacter draws duel = Some (0, 0)%nat.
Proof.
  destruct (turnOrder_shuffles_able draws duel)
    as (Hperm & _ & _ & _ & _ & Hnext & _).
  split; [exact Hperm|]. rewrite Hnext. reflexivity.
Defined.

Lemma nextCharacter_needs_able_witness :
  (∃ r cha, nextCharacter draws duel = Some r
            ∧ deref duel r = Some cha ∧ Character.able cha = true)
  ∧ turnOrder draws wiped = [] ∧ nextCharacter draws wiped = None.
Proof.
  split.
  - apply (proj1 (nextCharacter_needs_able draws duel)).
    exists (0, 0)%nat, (fighter "Ann" 55 4 7). split; reflexivity.
  - apply (proj2 (nextCharacter_needs_able draws wiped)).
    intros [[|[|pi]] [|ci]] cha Hcha; try discriminate;
      injection Hcha as <-; reflexivity.
Defined.

Lemma exit_is_absorbing_witness :
  willExit (quit false duel (0, 0)%nat).1.2 = true
  ∧ state_of (Simple.doVictory (quit false duel (0, 0)%nat).1.2).1 = exit.
Proof.
  destruct exit_is_absorbing as (_ & Hquit & _ & Hafter).
  split; [apply Hquit|].
  apply (Hafter (quit false duel (0, 0)%nat).1.2); [apply Hquit|].
  apply rtc_once. apply step_doVictory_simple.
Defined.

Lemma invoke_checks_costs_witness :
  deref duel (0, 1)%nat = Some (fighter "Bob" 30 1 3)
  ∧ Character.lookup (fighter "Bob" 30 1 3) "Skill/Heal"
    = Some (Action.mk true (Simple.heal draws) Action.ally
              Action.onlyUnhealthy [Resource.mk 2 "MP"])
  ∧ invoke duel (0, 1)%nat "Skill/Heal" [(0, 1)%nat]
    = (duel, inl InsufficientResource)
  ∧ (∃ (h1 h2 : Action.heap) (paid : object) (description : string)
       (g' : game),
       invoke duel (0, 0)%nat "Skill/Heal" [(0, 1)%nat] = (g', inr description)
       ∧ Simple.heal draws [(0, 0)%nat] [(0, 1)%nat] h1 = (h2, description)
       ∧ h1 !! (0, 0)%nat = Some paid
       ∧ Object.stored paid "MP" = 4 - 2
       ∧ Object.stored paid "HP/Current" = 55
       ∧ (∀ r, r ≠ (0, 0)%nat → h1 !! r = Character.base <$> deref duel r)
       ∧ (∀ r c0, deref duel r = Some c0 →
            ∃ o, (h2 !! r = Some o ∨ h2 !! r = None ∧ h1 !! r = Some o)
                 ∧ deref g' r
                   = Some (Character.mk o (Character.equipment c0)
                             (Character.actions c0))))
  ∧ (invoke duel (0, 0)%nat "Skill/Heal" [(0, 1)%nat]).2
    = inr ("Ann heals Bob" +:+ newline
           +:+ "Ann heals 21 points of damage" +:+ newline).
Proof.
  split; [reflexivity|]. split; [reflexivity|]. split; [|split].
  - apply (proj1 (invoke_checks_costs duel (0, 1)%nat (fighter "Bob" 30 1 3)
                    "Skill/Heal" _ [(0, 1)%nat] eq_refl eq_refl)).
    exists (Resource.mk 2 "MP"). split; [left|]. vm_compute. reflexivity.
  - destruct (proj2 (invoke_checks_costs duel (0, 0)%nat (fighter "Ann" 55 4 7)
                    "Skill/Heal" _ [(0, 1)%nat] eq_refl eq_refl))
      as (h1 & h2 & paid & description & g' & Hrun & Happly & Hpaid & _ & _
          & Hstored & Hothers & Hback & _).
    + intros c Hc. apply list_elem_of_singleton in Hc as ->.
      vm_compute. discriminate.
    + exists h1, h2, paid, description, g'.
      split; [exact Hrun|]. split; [exact Happly|]. split; [exact Hpaid|].
      split; [rewrite Hstored; vm_compute; reflexivity|].
      split; [rewrite Hstored; vm_compute; reflexivity|].
      split; [exact Hothers|exact Hback].
  - vm_compute. reflexivity.
Defined.

Lemma doVictory_two_parties_witness :
  parties scenario = [scenario_A; scenario_B]
  ∧ state_of scenario = victory
  ∧ 0 ≤ experience_sum (Party.members scenario_B) < 2 ^ 63
  ∧ (λ pa, (λ c, Character.get c "Experience") <$> Party.members pa)
      <$> parties (Simple.doVictory scenario).1 = [[7 + Z.max 1 5]]
  ∧ (λ pa, item_name <$> Party.inventory pa)
      <$> parties (Simple.doVictory scenario).1 = [[["Potion"]; ["Potion"]]].
Proof.
  assert (0 ≤ experience_sum (Party.members scenario_B) < 2 ^ 63) as Hsum
    by (vm_compute; split; [discriminate|reflexivity]).
  destruct (doVictory_two_parties scenario scenario_A scenario_B
              eq_refl eq_refl Hsum) as (_ & _ & Hparties & _ & _).
  split; [reflexivity|]. split; [reflexivity|]. split; [exact Hsum|].
  rewrite Hparties. split; reflexivity.
Defined.

(** With three parties and only the last one down the phase is victory, but
    [doVictory()] takes the party at index 1: the defeated party stays in
    the game with its inventory, an undefeated party is removed, and the
    reward is counted from the removed party's Experience (2), not from the
    defeated one's (5). *)
Lemma doVictory_three_parties :
  state_of melee = victory
  ∧ Party.defeated <$> parties melee = [false; false; true]
  ∧ Party.defeated <$> parties (Simple.doVictory melee).1 = [false; true]
  ∧ (λ pa, Character.name <$> Party.members pa)
      <$> parties (Simple.doVictory melee).1 = [["Ann"]; ["Cid"]]
  ∧ (λ pa, (λ c, Character.get c "Experience") <$> Party.members pa)
      <$> parties (Simple.doVictory melee).1 = [[9]; [5]]
  ∧ (λ pa, item_name <$> Party.inventory pa)
      <$> parties (Simple.doVictory melee).1
    = [[["Sword"; "Bea"]]; [["Potion"]]].
Proof. repeat split; vm_compute; reflexivity. Qed.

End Runs.

(* ===================================================================== *)
(** * Further properties of the engine *)
(* ===================================================================== *)

Section Positions.

Import Game.

Lemma partyOf_scan_stranger (k : nat) (rest : list party) (r : ref) :
  (∀ pi pa, rest !! pi = Some pa → r ∉ pointers (k + pi) pa) →
  partyOf_scan k rest r = 0%nat.
Proof.
  revert k. induction rest as [|pa rest IH]; intros k Hno; [done|].
  simpl. case_bool_decide as Hin.
  - exfalso. apply (Hno 0%nat pa); [done|]. by rewrite Nat.add_0_r.
  - apply IH. intros pi pa' Hpa'.
    replace (S k + pi)%nat with (k + S pi)%nat by lia. by apply Hno.
Qed.

Lemma partyOf_stranger (g : game) (r : ref) :
  ¬ is_Some (deref g r) → partyOf g r = 0%nat.
Proof.
  intros Hno. apply partyOf_scan_stranger. intros pi pa Hpa Hin.
  apply Hno, elem_of_all_characters, elem_of_join_imap. eauto.
Qed.

Lemma positionOf_scan_found (k : nat) (rest : list character) (r : ref) :
  (k ≤ r.2 < k + length rest)%nat →
  Base.positionOf_scan r.1 k rest r = r.2.
Proof.
  revert k. induction rest as [|ca rest IH]; intros k Hk; simpl in *; [lia|].
  case_bool_decide as E.
  - by rewrite <- E.
  - apply IH. destruct (decide (r.2 = k)) as [E'|]; [|lia].
    exfalso. apply E. rewrite <- E'. by destruct r.
Qed.


Lemma positionOf_member (g : game) (r : ref) :
  is_Some (deref g r) → Base.positionOf g r = r.2.
Proof.
  intros Hin. unfold Base.positionOf. rewrite (partyOf_member g r Hin).
  apply deref_is_Some in Hin as (pa & -> & Hlt). simpl.
  apply positionOf_scan_found. lia.
Qed.



(** X2.  [useAI] is true exactly for the characters held by a party other
    than party 0; a character that no party holds counts as controlled by
    the player. *)
Theorem useAI_other_parties (g : game) (r : ref) :
  useAI g r = true ↔ is_Some (deref g r) ∧ r.1 ≠ 0%nat.
Proof.
  unfold useAI. rewrite Nat.ltb_lt. split.
  - intros Hlt. destruct (decide (is_Some (deref g r))) as [Hin|Hno].
    + rewrite (partyOf_member g r Hin) in Hlt. split; [done|lia].
    + rewrite (partyOf_stranger g r Hno) in Hlt. lia.
  - intros [Hin Hne]. rewrite (partyOf_member g r Hin). lia.
Qed.

End Positions.

Section Menu.

Import Game.

Lemma find_action_cons (k : string) (h : handler) (m : actionMap) (s : string) :
  find_action ((k, h) :: m) s
  = if decide (k = s) then Some h else find_action m s.
Proof.
  unfold find_action. simpl. destruct (decide (k = s)); [done|].
  by destruct (list_find _ m) as [[i [k' h']]|].
Qed.

Lemma compare_Eq_refl (k k' : string) : k = k' → String.compare k k' = Eq.
Proof.
  intros <-. pose proof (String.compare_antisym k k) as H.
  by destruct (String.compare k k).
Qed.

Lemma find_action_bind (k : string) (h : handler) (m : actionMap) (s : string) :
  find_action (bind_action k h m) s
  = if decide (k = s) then Some h else find_action m s.
Proof.
  induction m as [|[k' h'] m IH]; simpl.
  - by rewrite find_action_cons.
  - destruct (String.compare k k') eqn:E.
    + apply String.compare_eq_iff in E as <-.
      rewrite !find_action_cons. by destruct (decide (k = s)).
    + by rewrite find_action_cons.
    + rewrite !find_action_cons, IH.
      destruct (decide (k' = s)) as [<-|]; [|done].
      destruct (decide (k = k')) as [Heq|]; [|done].
      by rewrite (compare_Eq_refl _ _ Heq) in E.
Qed.

(** X3.  The menu's action map behaves as a map: after [actions[k] = h] a
    lookup of [k] finds [h], whatever was bound to [k] before, and a lookup
    of any other name finds what it found before. *)
Theorem find_action_bind_action (k : string) (h : handler) (m : actionMap)
    (s : string) :
  find_action (bind_action k h m) s
  = if decide (s = k) then Some h else find_action m s.
Proof.
  rewrite find_action_bind.
  destruct (decide (k = s)), (decide (s = k)); congruence.
Qed.

Lemma find_action_is_Some (m : actionMap) (s : string) :
  s ∈ m.*1 → is_Some (find_action m s).
Proof.
  intros ([k h] & -> & Hin)%list_elem_of_fmap. unfold find_action.
  apply fmap_is_Some.
  by apply (list_find_elem_of (λ b : string * handler, b.1 = k) m (k, h)).
Qed.

Lemma lookup_visible (cha : character) (s : string) :
  s ∈ visibleActions cha → is_Some (Character.lookup cha s).
Proof.
  unfold visibleActions. intros ([k d] & -> & Hin)%list_elem_of_fmap.
  apply list_elem_of_filter in Hin as [_ Hin]. unfold Character.lookup.
  apply fmap_is_Some.
  by apply (list_find_elem_of
              (λ b : string * Action.descriptor, b.1 = k) _ (k, d)).
Qed.

Lemma menu_pass_understood (choose : chooser) (g : game) (target : ref)
    (am : actionMap) (allowCharacterActions : bool) (res s : string)
    (cha : character) (g' : game) (e : error) (told : list event) :
  deref g target = Some cha →
  s ∈ (if allowCharacterActions then visibleActions cha else []) ++ am.*1 →
  menu_pass choose g target am res s = (Return g' (inl e), told) →
  e = InsufficientResource.
Proof.
  intros Hcha Hs. unfold menu_pass.
  destruct (String.eqb s "Cancel"); [done|].
  destruct (find_action am s) as [h|] eqn:Hfind.
  - destruct (h false g target) as [[retry g1] r]. by destruct retry.
  - apply elem_of_app in Hs as [Hs|Hs]; cycle 1.
    { apply find_action_is_Some in Hs. rewrite Hfind in Hs. by destruct Hs. }
    destruct allowCharacterActions; [|by apply elem_of_nil in Hs].
    apply lookup_visible in Hs as [d Hd].
    unfold resolve, scope, filter_of. rewrite Hcha. simpl. rewrite Hd. simpl.
    destruct (resolve_scoped choose g target _ _) as [targets asked].
    destruct targets as [just|]; [|done].
    destruct (length just <? 1)%nat; [done|].
    unfold invoke. rewrite Hcha, Hd.
    destruct (forallb _ _).
    + destruct (Action.apply d _ _ _) as [hp description]. done.
    + intros [= _ <- _]. done.
Qed.

(** X4.  A label that the menu offers is always understood: whichever of
    the offered labels the interaction surface returns, the pass through
    the menu cannot end in the error of an unknown action or of a missing
    character; the only error left is that of a cost the actor cannot
    pay. *)
Theorem offered_label_is_understood (choose : chooser) (g : game)
    (target : ref) (am : actionMap) (allowCharacterActions : bool)
    (res s : string) (cha : character) :
  deref g target = Some cha →
  s ∈ (if allowCharacterActions then visibleActions cha else []) ++ am.*1 →
  ∀ g' e told,
    menu_pass choose g target am res s = (Return g' (inl e), told) →
    e = InsufficientResource.
Proof.
  intros Hcha Hs g' e told. by eapply menu_pass_understood.
Qed.

(** What [actions] of the rule set comes to, key by key. *)
Lemma simple_actions_table (generate : factory) (g : game) (c : ref) :
  Simple.actions generate g c
  = match state_of g with
     | menu => [("Fight", Simple.fight generate)]
     | _ => []
     end
    ++ (if useAI g c then []
        else [("Inspect", inspect); ("Quit/No", ignore); ("Quit/Yes", quit)]).
Proof.
  unfold Simple.actions, actions.
  by destruct (state_of g), (useAI g c).
Qed.

(** X5.  The rule set's menu offers Fight in the menu phase only, and
    Inspect, Quit/No and Quit/Yes only for a character the player
    controls, in this order; a character of another party gets no game
    action outside the menu phase. *)
Theorem simple_actions_labels (generate : factory) (g : game) (c : ref) :
  (Simple.actions generate g c).*1
  = match state_of g with menu => ["Fight"] | _ => [] end
    ++ (if useAI g c then [] else ["Inspect"; "Quit/No"; "Quit/Yes"]).
Proof.
  rewrite simple_actions_table. rewrite fmap_app.
  by destruct (state_of g), (useAI g c).
Qed.

(** One pass does not look at the text of the pass before. *)
Lemma menu_pass_res (choose : chooser) (g : game) (target : ref)
    (am : actionMap) (res res' s : string) :
  match menu_pass choose g target am res s,
        menu_pass choose g target am res' s with
  | (Retry g1 _, told1), (Retry g2 _, told2) => g1 = g2 ∧ told1 = told2
  | (Return g1 r1, told1), (Return g2 r2, told2) =>
      g1 = g2 ∧ r1 = r2 ∧ told1 = told2
  | _, _ => False
  end.
Proof.
  unfold menu_pass. destruct (String.eqb s "Cancel"); [done|].
  destruct (find_action am s) as [h|].
  - destruct (h false g target) as [[retry g1] r]. by destruct retry.
  - destruct (resolve choose g target s) as [[e|targets] asked]; [done|].
    destruct targets as [just|]; [|done].
    destruct (length just <? 1)%nat; [done|].
    by destruct (invoke g target s just).
Qed.

Lemma menu_loop_res (choose : chooser) (answers : list string) (g : game)
    (target : ref) (am : actionMap) (labels : list string) (res res' : string) :
  menu_loop choose answers g target am labels res
  = menu_loop choose answers g target am labels res'.
Proof.
  revert g res res'. induction answers as [|s answers IH]; intros g res res';
    [done|].
  simpl. pose proof (menu_pass_res choose g target am res res' s) as H.
  destruct (menu_pass choose g target am res s) as [[g1 r1|g1 r1] told1],
           (menu_pass choose g target am res' s) as [[g2 r2|g2 r2] told2];
    try done.
  - destruct H as [<- <-]. by rewrite (IH g1 r1 r2).
  - by destruct H as (<- & <- & <-).
Qed.

Lemma menu_noise (generate : factory) (choose : chooser) (g : game) (c : ref)
    (res s : string) :
  useAI g c = false →
  s = "Cancel" ∨ s = "Quit/No" ∨ s = "Inspect" →
  ∃ res', menu_pass choose g c (Simple.actions generate g c) res s
          = (Retry g res', []).
Proof.
  intros Hai Hs. rewrite simple_actions_table, Hai. unfold menu_pass.
  destruct Hs as [->|[->| ->]].
  - by exists res.
  - exists "Scratch that.". by destruct (state_of g).
  - exists "Let's see...". by destruct (state_of g).
Qed.

Lemma menu_loop_noise (generate : factory) (choose : chooser)
    (noise answers : list string) (g : game) (c : ref) (labels : list string)
    (res res' : string) :
  useAI g c = false →
  Forall (λ s, s = "Cancel" ∨ s = "Quit/No" ∨ s = "Inspect") noise →
  (menu_loop choose (noise ++ answers) g c (Simple.actions generate g c)
     labels res).1
  = (menu_loop choose answers g c (Simple.actions generate g c) labels res').1.
Proof.
  intros Hai Hnoise. revert res.
  induction Hnoise as [|s noise Hs _ IH]; intros res.
  - simpl. by rewrite (menu_loop_res _ _ _ _ _ _ res res').
  - simpl. destruct (menu_noise generate choose g c res s Hai Hs) as [r ->].
    specialize (IH r).
    destruct (menu_loop choose (noise ++ answers) g c _ labels r) as [x rest].
    done.
Qed.

(** X6.  Cancelling, declining to quit and inspecting leave no trace: for a
    character the player controls, the menu of the rule set returns what it
    would have returned without these answers, with the game as it would
    have been; nor does the text a retrying handler hands back ever reach
    the result. *)
Theorem menu_noise_is_skipped (generate : factory) (choose : chooser)
    (noise answers : list string) (g : game) (c : ref) (labels : list string)
    (res res' : string) :
  useAI g c = false →
  Forall (λ s, s = "Cancel" ∨ s = "Quit/No" ∨ s = "Inspect") noise →
  (menu_loop choose (noise ++ answers) g c (Simple.actions generate g c)
     labels res).1
  = (menu_loop choose answers g c (Simple.actions generate g c) labels res').1.
Proof. apply menu_loop_noise. Qed.

End Menu.

Section Parties.

Import Game.

Lemma generate_loop_grows (generate : factory) (fuel : nat) (ps : list party)
    (out : string) :
  ps `prefix_of` (generate_loop generate fuel ps out).1
  ∧ length (generate_loop generate fuel ps out).1 = (length ps + fuel)%nat.
Proof.
  revert ps out. induction fuel as [|fuel IH]; intros ps out; simpl.
  - split; [done|lia].
  - destruct (IH (ps ++ [generate ps]) (out +:+ "a new party appeared!" +:+ newline))
      as [Hpre Hlen].
    split.
    + etrans; [|exact Hpre]. by apply prefix_app_r.
    + rewrite Hlen, length_app. simpl. lia.
Qed.

(** X7.  [generateParties] only ever appends: the parties present stay
    where they are, the number of parties afterwards is the larger of the
    number before and the attribute "parties" read as unsigned, attributes
    and exit flag are untouched, and a second call adds nothing and
    reports nothing. *)
Theorem generateParties_fills (generate : factory) (g : game) :
  let g' := (generateParties generate g).1 in
  parties g `prefix_of` parties g'
  ∧ Z.of_nat (length (parties g'))
    = Z.max (Z.of_nat (length (parties g)))
            (to_size_t (default 0 (attribute g !! "parties")))
  ∧ attribute g' = attribute g
  ∧ willExit g' = willExit g
  ∧ generateParties generate g' = (g', "").
Proof.
  unfold generateParties.
  set (bound := to_size_t (default 0 (attribute g !! "parties"))).
  set (fuel := Z.to_nat (bound - Z.of_nat (length (parties g)))).
  destruct (generate_loop_grows generate fuel (parties g) "") as [Hpre Hlen].
  destruct (generate_loop generate fuel (parties g) "") as [ps out] eqn:E.
  simpl in *.
  assert (Z.of_nat (length ps) = Z.max (Z.of_nat (length (parties g))) bound)
    as Hmax by (subst fuel; lia).
  repeat split; try done.
  fold bound.
  replace (Z.to_nat (bound - Z.of_nat (length ps))) with 0%nat by lia.
  done.
Qed.

(** X8.  Choosing Fight in the menu of the rule set starts a match: from a
    game with a single party, whoever's turn it is, the menu returns at
    once with the old party in front, one freshly generated party behind
    it, and the attribute "parties" at 2; the game has left the menu
    phase. *)
Theorem menu_fight_opens_match (generate : factory) (choose : chooser)
    (rand : nat → nat) (rest : list string) (g : game) (p : party) (c : ref) :
  parties g = [p] →
  willExit g = false →
  nextCharacter rand g = Some c →
  let g' := Game.mk [p; generate [p]] (<["parties" := 2]> (attribute g)) false in
  (Base.doMenu (Simple.actions generate) choose rand ("Fight" :: rest) g).1
  = Some (g', inr ("OFF WITH THEIR HEADS!" +:+ newline))
  ∧ state_of g' ≠ menu.
Proof.
  intros Hps Hexit Hnext. split.
  - unfold Base.doMenu, doMenuAction. rewrite Hnext. unfold resolve_menu.
    rewrite simple_actions_table.
    assert (state_of g = menu) as -> by (unfold state_of; by rewrite Hexit, Hps).
    simpl. unfold menu_pass. simpl.
    unfold Simple.fight, generateParties. simpl.
    rewrite lookup_insert_eq, Hps, Hexit. simpl. done.
  - unfold state_of. simpl.
    by destruct (Party.defeated p), (Party.defeated (generate [p])).
Qed.

End Parties.

Section Run.

Import Game.

(** X9.  [run] comes back only when the game is over or the player quit:
    the value returned is always true, the game is then in the defeat or
    in the exit phase, everything logged before is still in the log, in
    order, and after a defeat the last line logged is the message of
    [doDefeat]. *)
Theorem run_returns_in_defeat_or_exit (L : Flow.logic) (choose : chooser)
    (fuel : nat) (turns : list Flow.turn) (g : game) (log : list string)
    (b : bool) (g' : game) (log' : list string) :
  Flow.run L choose fuel turns g log = Flow.Returned b g' log' →
  b = true
  ∧ log `prefix_of` log'
  ∧ (state_of g' = exit
     ∨ state_of g' = defeat
       ∧ last log' = Some "The player party was defeated!").
Proof.
  revert turns g log. induction fuel as [|fuel IH]; intros turns g log H;
    [done|].
  simpl in H. destruct (state_of g) eqn:Hst.
  - destruct turns as [|t turns']; [done|].
    destruct (doMenuAction _ _ _ _ _ _) as [[[g1 [e|text]]|] told]; try done.
    apply IH in H as (? & Hpre & ?). split; [done|]. split; [|done].
    etrans; [|exact Hpre]. by apply prefix_app_r.
  - destruct turns as [|t turns']; [done|].
    destruct (doMenuAction _ _ _ _ _ _) as [[[g1 [e|text]]|] told]; try done.
    apply IH in H as (? & Hpre & ?). split; [done|]. split; [|done].
    etrans; [|exact Hpre]. by apply prefix_app_r.
  - destruct (Flow.doVictory L g) as [g1 text].
    apply IH in H as (? & Hpre & ?). split; [done|]. split; [|done].
    etrans; [|exact Hpre]. by apply prefix_app_r.
  - injection H as <- <- <-. split; [done|]. split; [by apply prefix_app_r|].
    right. split; [done|]. by rewrite last_snoc.
  - injection H as <- <- <-. split; [done|]. split; [done|]. by left.
Qed.

Lemma menu_quit (generate : factory) (choose : chooser)
    (noise rest : list string) (g : game) (c : ref)
    (allowCharacterActions : bool) :
  useAI g c = false →
  Forall (λ s, s = "Cancel" ∨ s = "Quit/No" ∨ s = "Inspect") noise →
  (resolve_menu choose (noise ++ "Quit/Yes" :: rest) g c
     (Simple.actions generate g c) allowCharacterActions).1
  = Some (Game.mk (parties g) (attribute g) true, inr "Quit.").
Proof.
  intros Hai Hnoise. unfold resolve_menu.
  rewrite (menu_loop_noise generate choose noise _ g c _ "" "" Hai Hnoise).
  simpl. rewrite simple_actions_table, Hai. unfold menu_pass.
  by destruct (state_of g).
Qed.

(** X10.  Quit/Yes ends the run.  When it is the turn of a character the
    player controls, in the menu or in combat, and the player answers
    Quit/Yes, whatever was cancelled, declined or inspected before, [run]
    logs "Quit." and returns true with the parties and attributes as they
    were and the exit flag set; no later turn is played. *)
Theorem run_quit (generate : factory) (choose : chooser) (fuel : nat)
    (rand : nat → nat) (noise rest : list string) (turns : list Flow.turn)
    (g : game) (log : list string) (c : ref) :
  state_of g = menu ∨ state_of g = combat →
  nextCharacter rand g = Some c →
  useAI g c = false →
  Forall (λ s, s = "Cancel" ∨ s = "Quit/No" ∨ s = "Inspect") noise →
  Flow.run (Flow.simple_logic generate) choose (S (S fuel))
    (Flow.mkTurn rand (noise ++ "Quit/Yes" :: rest) :: turns) g log
  = Flow.Returned true (Game.mk (parties g) (attribute g) true)
      (log ++ ["Quit."]).
Proof.
  intros Hst Hnext Hai Hnoise.
  assert (∀ allow,
    (doMenuAction (Simple.actions generate) choose rand
       (noise ++ "Quit/Yes" :: rest) g allow).1
    = Some (Game.mk (parties g) (attribute g) true, inr "Quit.")) as Hmenu.
  { intros allow. unfold doMenuAction. rewrite Hnext. by apply menu_quit. }
  cbn [Flow.run Flow.actions Flow.simple_logic Flow.draws Flow.answers].
  destruct Hst as [-> | ->].
  - specialize (Hmenu false).
    destruct (doMenuAction _ _ _ _ _ _) as [r told]. simpl in Hmenu.
    subst r. done.
  - specialize (Hmenu true).
    destruct (doMenuAction _ _ _ _ _ _) as [r told]. simpl in Hmenu.
    subst r. done.
Qed.

Lemma state_scan_victory (n pi : nat) (rest : list party) :
  n = (pi + length rest)%nat →
  state_scan n pi rest = victory ↔
  ∃ front final, rest = front ++ [final]
    ∧ Forall (λ p, Party.defeated p = false) front
    ∧ Party.defeated final = true.
Proof.
  revert pi. induction rest as [|p rest IH]; intros pi Hn; simpl.
  - split; [done|]. intros (front & final & E & _). by destruct front.
  - destruct (Party.defeated p) eqn:Hp.
    + replace (n - pi - 1)%nat with (length rest) by (simpl in Hn; lia).
      destruct rest as [|p' rest]; simpl.
      * split; [|done]. intros _. exists [], p. by repeat split.
      * split; [done|]. intros (front & final & E & Hfront & _).
        destruct front as [|q front]; [by destruct rest|].
        injection E as <- _. apply Forall_cons in Hfront as [Hq _]. congruence.
    + rewrite (IH (S pi)) by (simpl in Hn; lia). split.
      * intros (front & final & -> & Hfront & Hfinal).
        exists (p :: front), final. repeat split; [|done]. by constructor.
      * intros (front & final & E & Hfront & Hfinal).
        destruct front as [|q front].
        -- injection E as <- _. congruence.
        -- injection E as <- ->. apply Forall_cons in Hfront as [_ Hfront].
           by exists front, final.
Qed.

Lemma state_of_victory (g : game) :
  state_of g = victory ↔
  willExit g = false
  ∧ length (parties g) ≠ 1%nat
  ∧ ∃ front final, parties g = front ++ [final]
      ∧ Forall (λ p, Party.defeated p = false) front
      ∧ Party.defeated final = true.
Proof.
  unfold state_of. destruct (willExit g).
  { split; [done|]. by intros [? _]. }
  destruct (Nat.eqb_spec (length (parties g)) 1) as [E|E].
  { split; [done|]. by intros (_ & ? & _). }
  rewrite (state_scan_victory _ 0) by done. split; [done|]. by intros (_ & _ & ?).
Qed.

Lemma victory_step (g : game) (p0 p1 p2 : party) (rest : list party) :
  state_of g = victory →
  parties g = p0 :: p1 :: p2 :: rest →
  state_of (with_parties (p0 :: p2 :: rest) g) = victory.
Proof.
  rewrite !state_of_victory. intros (Hexit & _ & front & final & E & Hfront & Hfinal) Hps.
  rewrite Hps in E. split; [done|]. split; [done|].
  destruct front as [|q0 [|q1 front]]; [done|by destruct rest|].
  injection E as <- <- E. exists (p0 :: front), final.
  split; [simpl; by rewrite E|]. split; [|done].
  apply Forall_cons in Hfront as [H0 [_ Hfront]%Forall_cons]. by constructor.
Qed.

Lemma run_victory_step (L : Flow.logic) (choose : chooser) (fuel : nat)
    (turns : list Flow.turn) (g : game) (log : list string) :
  state_of g = victory →
  Flow.run L choose (S fuel) turns g log
  = Flow.run L choose fuel turns (Flow.doVictory L g).1
      (log ++ [(Flow.doVictory L g).2]).
Proof. intros Hst. simpl. rewrite Hst. by destruct (Flow.doVictory L g). Qed.

(** X11.  A victory always leads back to the menu.  With the [doVictory]
    of the base, a game in the victory phase with n parties is taken by
    [run] through n - 1 victories, each logged, after which the player
    party is the only one left, whatever the number of parties was; the
    parties in between are dropped from the front, the defeated one
    last. *)
Theorem run_victory_leaves_player_party (L : Flow.logic) (choose : chooser)
    (fuel : nat) (turns : list Flow.turn) (g : game) (log : list string)
    (p0 : party) (rest : list party) :
  Flow.doVictory L = doVictory →
  state_of g = victory →
  parties g = p0 :: rest →
  Flow.run L choose (length rest + fuel) turns g log
  = Flow.run L choose fuel turns (with_parties [p0] g)
      (log ++ replicate (length rest) "The player party was victorious!")
  ∧ state_of (with_parties [p0] g) = menu.
Proof.
  intros HL Hst Hps. split; cycle 1.
  { unfold state_of in *. simpl. by destruct (willExit g). }
  revert g log Hst Hps. induction rest as [|p1 rest IH]; intros g log Hst Hps.
  { unfold state_of in Hst. rewrite Hps in Hst. by destruct (willExit g). }
  change (length (p1 :: rest) + fuel)%nat with (S (length rest + fuel)).
  rewrite (run_victory_step _ _ _ _ _ _ Hst), HL. unfold doVictory at 1 2.
  rewrite Hps. cbn [fst snd delete list_delete].
  destruct rest as [|p2 rest]; [done|].
  rewrite IH; [|by eapply victory_step|done].
  f_equal. rewrite <- app_assoc. done.
Qed.

End Run.

Section Dice.

Lemma to_int_small (z : Z) : - 2 ^ 31 ≤ z < 2 ^ 31 → Simple.to_int z = z.
Proof.
  intros Hz. unfold Simple.to_int.
  destruct (Z.ltb_spec (z `mod` 2 ^ 32) (2 ^ 31));
    Z.to_euclidean_division_equations; lia.
Qed.

Lemma to_long_small (z : Z) : - 2 ^ 63 ≤ z < 2 ^ 63 → Game.to_long z = z.
Proof.
  intros Hz. unfold Game.to_long.
  destruct (Z.ltb_spec (z `mod` 2 ^ 64) (2 ^ 63));
    Z.to_euclidean_division_equations; lia.
Qed.

Lemma to_long_mod (z : Z) : Game.to_long z `mod` 2 ^ 64 = z `mod` 2 ^ 64.
Proof.
  unfold Game.to_long.
  destruct (Z.ltb_spec (z `mod` 2 ^ 64) (2 ^ 63)).
  - apply Z.mod_mod. lia.
  - rewrite <- (Z.mod_add _ 1) by lia.
    replace (z `mod` 2 ^ 64 - 2 ^ 64 + 1 * 2 ^ 64) with (z `mod` 2 ^ 64) by lia.
    apply Z.mod_mod. lia.
Qed.

Lemma roll_loop_bounds (rng : nat → nat) (n pos : nat) (res : Z) :
  0 ≤ res →
  res + 6 * Z.of_nat n < 2 ^ 31 →
  (Simple.roll_loop rng n pos 6 res).2 = (pos + n)%nat
  ∧ res + Z.of_nat n ≤ (Simple.roll_loop rng n pos 6 res).1
    ≤ res + 6 * Z.of_nat n.
Proof.
  revert pos res. induction n as [|n IH]; intros pos res Hres Hfit; simpl.
  - lia.
  - pose proof (Z.mod_pos_bound (Z.of_nat (rng pos)) 6 eq_refl).
    rewrite to_int_small by lia.
    destruct (IH (S pos) (res + (1 + Z.of_nat (rng pos) `mod` 6)))
      as [-> ?]; lia.
Qed.

(** X12.  [roll] throws [num] six-sided dice.  For a number of dice whose
    highest total fits the [int] it is summed in, it draws exactly [num]
    numbers from the generator (none for a negative [num]) and its result
    lies between [num] and six times [num], whatever the generator
    returns. *)
Theorem roll_within_dice (rng : nat → nat) (pos : nat) (num : Z) :
  6 * num < 2 ^ 31 →
  (Simple.roll rng pos num).2 = (pos + Z.to_nat num)%nat
  ∧ Z.max 0 num ≤ (Simple.roll rng pos num).1 ≤ 6 * Z.max 0 num.
Proof.
  intros Hnum. unfold Simple.roll.
  destruct (roll_loop_bounds rng (Z.to_nat num) pos 0) as [-> ?]; lia.
Qed.

(** X13.  Within the levels whose points fit a [long], [getPoints] is
    strictly increasing, for negative levels too: a higher level never
    gives fewer points. *)
Theorem getPoints_increasing (a b : Z) :
  - 2 ^ 63 ≤ 10 * a - 5 →
  10 * b + 5 < 2 ^ 63 →
  a < b →
  Simple.getPoints a < Simple.getPoints b.
Proof.
  intros Ha Hb Hab. unfold Simple.getPoints.
  rewrite !to_long_small by (Z.to_euclidean_division_equations; lia).
  Z.to_euclidean_division_equations. lia.
Qed.

End Dice.

Section Recruit.

Import Object.

(** X14.  A character comes out of the rule set's constructor at full
    strength.  If the parent's constructor left no function attribute under
    Level or under the keys the constructor stores, and the level is one
    whose points fit a [long], then HP/Total is ten times the level plus
    one, with five more or less when that is odd, MP/Total is twenty times
    the level plus one (the bonus for odd arguments never applies to it),
    the current HP and MP equal the totals, Attack, Defence and Experience
    read 6, 3 and 0, the character is alive exactly when its level is not
    negative, and it is healthy, so no target of a heal. *)
Theorem character_starts_full (rng : nat → nat) (parent : object)
    (cname : string) :
  (∀ k, k ∈ ["Level"; "HP/Current"; "MP/Current"; "Attack"; "Defence";
             "Experience"] → function parent !! k = None) →
  - 2 ^ 63 ≤ 20 * (stored parent "Level" + 1) < 2 ^ 63 →
  let c := Simple.character rng parent cname in
  let level := stored parent "Level" in
  Character.get c "HP/Total" = 10 * (level + 1) + 5 * Z.rem (level + 1) 2
  ∧ Character.get c "MP/Total" = 20 * (level + 1)
  ∧ Character.get c "HP/Current" = Character.get c "HP/Total"
  ∧ Character.get c "MP/Current" = Character.get c "MP/Total"
  ∧ Character.get c "Attack" = 6
  ∧ Character.get c "Defence" = 3
  ∧ Character.get c "Experience" = 0
  ∧ (Character.alive c = true ↔ 0 ≤ level)
  ∧ Game.healthy c = true
  ∧ Game.unhealthy c = false.
Proof.
  intros Hfun Hrange c level.
  assert (function parent !! "Level" = None) as HLevel
    by (apply Hfun; rewrite !elem_of_cons; auto 10).
  assert (function parent !! "HP/Current" = None) as HHP
    by (apply Hfun; rewrite !elem_of_cons; auto 10).
  assert (function parent !! "MP/Current" = None) as HMP
    by (apply Hfun; rewrite !elem_of_cons; auto 10).
  assert (function parent !! "Attack" = None) as HAttack
    by (apply Hfun; rewrite !elem_of_cons; auto 10).
  assert (function parent !! "Defence" = None) as HDefence
    by (apply Hfun; rewrite !elem_of_cons; auto 10).
  assert (function parent !! "Experience" = None) as HExperience
    by (apply Hfun; rewrite !elem_of_cons; auto 10).
  assert (Simple.getPoints (Game.to_long (level + 1))
          = 10 * (level + 1) + 5 * Z.rem (level + 1) 2) as Hpoints.
  { fold level in Hrange. rewrite (to_long_small (level + 1)) by lia.
    unfold Simple.getPoints.
    rewrite to_long_small by (Z.to_euclidean_division_equations; lia). lia. }
  assert (Simple.getPoints (Game.to_long (Game.to_long (level + 1) * 2))
          = 20 * (level + 1)) as Hmpoints.
  { fold level in Hrange. rewrite (to_long_small (level + 1)) by lia.
    rewrite (to_long_small (_ * 2)) by lia. unfold Simple.getPoints.
    rewrite Z.rem_mul by done. rewrite to_long_small by lia. lia. }
  assert (Character.get c "HP/Total"
          = 10 * (level + 1) + 5 * Z.rem (level + 1) 2) as Htotal.
  { rewrite <- Hpoints.
    unfold Character.get, get, c, Simple.character, set. simpl.
    rewrite lookup_insert_ne, lookup_insert_eq by done.
    unfold Simple.getHPTotal. rewrite get_fuel_stored.
    - unfold stored. simpl. by rewrite !lookup_insert_ne by done.
    - simpl. by rewrite !lookup_insert_ne by done. }
  assert (Character.get c "MP/Total" = 20 * (level + 1)) as HMtotal.
  { rewrite <- Hmpoints.
    unfold Character.get, get, c, Simple.character, set. simpl.
    rewrite lookup_insert_eq.
    unfold Simple.getMPTotal. rewrite get_fuel_stored.
    - unfold stored. simpl. by rewrite !lookup_insert_ne by done.
    - simpl. by rewrite !lookup_insert_ne by done. }
  assert (Character.get c "HP/Current" = Character.get c "HP/Total") as Hhp.
  { rewrite Htotal, <- Hpoints. unfold Character.get, c, Simple.character.
    cbn [Character.base]. rewrite get_stored.
    - rewrite stored_set_ne, stored_set_eq by done.
      unfold get. simpl. rewrite lookup_insert_ne, lookup_insert_eq by done.
      unfold Simple.getHPTotal. rewrite get_fuel_stored.
      + unfold stored. simpl. by rewrite !lookup_insert_ne by done.
      + simpl. by rewrite !lookup_insert_ne by done.
    - simpl. by rewrite !lookup_insert_ne by done. }
  assert (Character.get c "MP/Current" = Character.get c "MP/Total") as Hmp.
  { unfold Character.get, c, Simple.character.
    cbn [Character.base]. rewrite get_stored.
    - rewrite stored_set_eq. unfold get. simpl.
      rewrite !lookup_insert_eq.
      unfold Simple.getMPTotal. rewrite !get_fuel_stored.
      + unfold stored. simpl. by rewrite !lookup_insert_ne by done.
      + simpl. by rewrite !lookup_insert_ne by done.
      + simpl. by rewrite !lookup_insert_ne by done.
    - simpl. by rewrite !lookup_insert_ne by done. }
  assert (∀ k v,
    k ≠ "HP/Current" → k ≠ "MP/Current" → k ≠ "HP/Total" → k ≠ "MP/Total" →
    function parent !! k = None →
    (<["Experience" := 0]>
       (<["Defence" := 3]> (<["Attack" := 6]> (attribute parent)))) !! k
    = Some v →
    Character.get c k = v) as Hstored.
  { intros k v H1 H2 H3 H4 Hk Hv. unfold Character.get, c, Simple.character.
    cbn [Character.base]. rewrite get_stored.
    - rewrite !stored_set_ne by done. unfold stored. simpl. by rewrite Hv.
    - simpl. by rewrite !lookup_insert_ne by done. }
  split; [done|]. split; [done|]. split; [done|]. split; [done|].
  split.
  { apply Hstored; try done.
    rewrite !lookup_insert_ne by done. by rewrite lookup_insert_eq. }
  split.
  { apply Hstored; try done.
    rewrite lookup_insert_ne by done. by rewrite lookup_insert_eq. }
  split. { apply Hstored; try done. by rewrite lookup_insert_eq. }
  split.
  { unfold Character.alive. rewrite Hhp, Htotal, Z.ltb_lt.
    Z.to_euclidean_division_equations. lia. }
  split. { unfold Game.healthy. rewrite Hhp. apply Z.eqb_refl. }
  unfold Game.unhealthy. rewrite Hhp, Z.ltb_irrefl. apply andb_false_r.
Qed.

End Recruit.

Section Effects.

Import Object.

Lemma foldl_invariant {A B : Type} (P : A → Prop) (Q : B → Prop)
    (f : A → B → A) (l : list B) (a : A) :
  (∀ a b, Q b → P a → P (f a b)) → Forall Q l → P a → P (foldl f a l).
Proof.
  intros Hstep Hl. revert a. induction Hl as [|b l Hb _ IH]; intros a Ha;
    [done|].
  simpl. by apply IH, Hstep.
Qed.

Lemma same_but_refl (keys : list string) (o : object) : Frame.same_but keys o o.
Proof. by repeat split. Qed.

Lemma same_but_set (keys : list string) (o o' : object) (k : string) (v : Z) :
  k ∈ keys → Frame.same_but keys o o' → Frame.same_but keys o (set o' k v).
Proof.
  intros Hk (Hname & Hfun & Hattr). repeat split; try done. simpl.
  intros k' Hk'. rewrite lookup_insert_ne; [by apply Hattr|].
  by intros ->.
Qed.

Lemma attacked_refl (target : list ref) (h : Action.heap) :
  Frame.attacked target h h.
Proof.
  intros r. destruct (h !! r) as [o|]; [|done].
  split; [apply same_but_refl|]. split; [lia|done].
Qed.

Lemma attack_one_attacked (rng : nat → nat) (target : list ref)
    (h0 : Action.heap) (s t : ref) (st : Action.heap * nat * string) :
  t ∈ target →
  Frame.attacked target h0 st.1.1 →
  Frame.attacked target h0 (Simple.attack_one rng s t st).1.1.
Proof.
  intros Ht Hinv. destruct st as [[h pos] os]. unfold Simple.attack_one.
  simpl in Hinv.
  destruct (h !! s) as [so|]; [|done].
  destruct (h !! t) as [to|] eqn:Hto; [|done].
  destruct (Simple.roll rng pos _) as [dmg pos1].
  destruct (Simple.roll rng pos1 _) as [def pos2].
  destruct (Z.ltb_spec 0 (dmg - def)) as [Hpos|]; [|done].
  simpl. intros r. specialize (Hinv r).
  destruct (decide (r = t)) as [->|Hne].
  - rewrite lookup_insert_eq. rewrite Hto in Hinv.
    destruct (h0 !! t) as [o|]; [|done].
    destruct Hinv as (Hsame & Hle & _). split.
    { apply same_but_set; [set_solver|done]. }
    split; [|done].
    unfold add. rewrite stored_set_eq. lia.
  - by rewrite lookup_insert_ne.
Qed.

(** X15.  An attack wears down its targets and nothing else.  Whatever the
    dice, after [attack] the heap holds the same objects; each differs
    from what it was in its stored HP/Current only, which has not gone up;
    and an object that is no target, the attacker among them, is exactly
    what it was. *)
Theorem attack_only_wears_targets (rng : nat → nat) (source target : list ref)
    (h : Action.heap) :
  Frame.attacked target h (Simple.attack rng source target h).1.
Proof.
  unfold Simple.attack.
  pose proof (foldl_invariant
    (λ st : Action.heap * nat * string, Frame.attacked target h st.1.1)
    (λ _, True)
    (λ st s, foldl (λ st t, Simple.attack_one rng s t st) st target)
    source (h, 0%nat, "")) as H.
  destruct (foldl _ _ source) as [[h' pos] os]. apply H.
  - intros a s _ Ha.
    apply (foldl_invariant
      (λ st : Action.heap * nat * string, Frame.attacked target h st.1.1)
      (λ t, t ∈ target)); [|by apply Forall_forall|done].
    intros a' t Ht Ha'. by apply attack_one_attacked.
  - by apply Forall_true.
  - apply attacked_refl.
Qed.

Lemma treated_refl (target : list ref) (h : Action.heap) :
  Frame.treated target h h.
Proof.
  intros r. destruct (h !! r) as [o|]; [|done].
  split; [apply same_but_refl|]. split; [lia|done].
Qed.

Lemma heal_one_treated (rng : nat → nat) (target : list ref)
    (h0 : Action.heap) (s t : ref) (st : Action.heap * nat * string) :
  t ∈ target →
  Frame.treated target h0 st.1.1 →
  Frame.treated target h0 (Simple.heal_one rng s t st).1.1.
Proof.
  intros Ht Hinv. destruct st as [[h pos] os]. unfold Simple.heal_one.
  simpl in Hinv.
  destruct (h !! s) as [so|]; [|done].
  destruct (h !! t) as [to|] eqn:Hto; [|done].
  destruct (Z.ltb_spec (get to "MP/Current") 2) as [Hlow|Hhigh]; [done|].
  destruct (Simple.roll rng pos _) as [amt pos1].
  simpl. intros r. specialize (Hinv r).
  destruct (decide (r = t)) as [->|Hne].
  - rewrite lookup_insert_eq. rewrite Hto in Hinv.
    destruct (h0 !! t) as [o|]; [|done].
    destruct Hinv as (Hsame & Hle & _ & Hskip). split.
    { unfold add_capped, add.
      apply same_but_set; [set_solver|]. apply same_but_set; [set_solver|done]. }
    split.
    { unfold add_capped, add. rewrite stored_set_ne, stored_set_eq by done. lia. }
    split; [done|].
    intros Hlow. specialize (Hskip Hlow). subst to. lia.
  - by rewrite !lookup_insert_ne.
Qed.

(** X16.  A heal touches its targets and nothing else, and it is the
    target that pays.  Whatever the dice, after [heal] the heap holds the
    same objects; each differs from what it was in its stored MP/Current
    and HP/Current only, and its MP have not gone up; an object that is no
    target, the healer among them, is exactly what it was; and so is a
    target whose MP/Current read below 2. *)
Theorem heal_only_treats_targets (rng : nat → nat) (source target : list ref)
    (h : Action.heap) :
  Frame.treated target h (Simple.heal rng source target h).1.
Proof.
  unfold Simple.heal.
  pose proof (foldl_invariant
    (λ st : Action.heap * nat * string, Frame.treated target h st.1.1)
    (λ _, True)
    (λ st s, foldl (λ st t, Simple.heal_one rng s t st) st target)
    source (h, 0%nat, "")) as H.
  destruct (foldl _ _ source) as [[h' pos] os]. apply H.
  - intros a s _ Ha.
    apply (foldl_invariant
      (λ st : Action.heap * nat * string, Frame.treated target h st.1.1)
      (λ t, t ∈ target)); [|by apply Forall_forall|done].
    intros a' t Ht Ha'. by apply heal_one_treated.
  - by apply Forall_true.
  - apply treated_refl.
Qed.

End Effects.

Section Budget.

Lemma shares_split (rng : nat → nat) (members : Z) (n pos : nat) (i points : Z) :
  0 ≤ points →
  length (SimpleParty.shares rng n pos i members points) = n
  ∧ Forall (λ z, 0 ≤ z) (SimpleParty.shares rng n pos i members points)
  ∧ (i + Z.of_nat n = members → (0 < n)%nat →
     foldr Z.add 0 (SimpleParty.shares rng n pos i members points) = points
     ∧ (0 < points →
        ∃ z, last (SimpleParty.shares rng n pos i members points) = Some z
             ∧ 0 < z)).
Proof.
  revert pos i points. induction n as [|n IH]; intros pos i points Hpoints.
  { simpl. split; [done|]. split; [constructor|]. lia. }
  simpl.
  destruct (Z.ltb_spec 0 points) as [Hpos|Hzero],
           (Z.ltb_spec i (members - 1)) as [Hmore|Hlast]; simpl.
  - pose proof (Z.mod_pos_bound (Z.of_nat (rng pos)) points Hpos) as Hc.
    destruct (IH (S pos) (i + 1) (points - Z.of_nat (rng pos) `mod` points))
      as (Hlen & Hall & Hsum); [lia|].
    split; [by rewrite Hlen|]. split; [constructor; [lia|done]|].
    intros Hi _. destruct Hsum as [Hsum Hlast]; [lia|lia|].
    split; [lia|]. intros _. destruct Hlast as (z & Hz & ?); [lia|].
    exists z. split; [|done].
    destruct (SimpleParty.shares rng n _ _ _ _); [done|]. done.
  - destruct (IH pos (i + 1) points) as (Hlen & Hall & Hsum); [lia|].
    split; [by rewrite Hlen|]. split; [constructor; [lia|done]|].
    intros Hi _. assert (n = 0%nat) as -> by lia. simpl.
    split; [lia|]. intros _. by exists points.
  - assert (points = 0) as -> by lia.
    destruct (IH pos (i + 1) 0) as (Hlen & Hall & Hsum); [lia|].
    split; [by rewrite Hlen|]. split; [constructor; [lia|done]|].
    intros Hi _. split; [|lia].
    destruct n as [|n]; [done|]. destruct Hsum as [-> _]; [lia|lia|done].
  - assert (points = 0) as -> by lia.
    destruct (IH pos (i + 1) 0) as (Hlen & Hall & Hsum); [lia|].
    split; [by rewrite Hlen|]. split; [constructor; [lia|done]|].
    intros Hi _. split; [|lia].
    destruct n as [|n]; [done|]. destruct Hsum as [-> _]; [lia|lia|done].
Qed.

Lemma to_long_idem (z : Z) : Game.to_long (Game.to_long z) = Game.to_long z.
Proof.
  apply to_long_small. unfold Game.to_long.
  destruct (Z.ltb_spec (z `mod` 2 ^ 64) (2 ^ 63));
    Z.to_euclidean_division_equations; lia.
Qed.

Lemma to_long_add_l (u v : Z) :
  Game.to_long (Game.to_long u + v) = Game.to_long (u + v).
Proof.
  assert ((Game.to_long u + v) `mod` 2 ^ 64 = (u + v) `mod` 2 ^ 64) as E.
  { rewrite Z.add_mod by lia. rewrite to_long_mod.
    by rewrite <- Z.add_mod by lia. }
  unfold Game.to_long at 1 3. by rewrite E.
Qed.

Lemma foldl_experience (cs : list character) (a : Z) :
  Game.to_long a = a →
  foldl (λ points c, Game.to_long (points + Character.get c "Experience")) a cs
  = Game.to_long (a + Wording.experience_sum cs).
Proof.
  revert a. induction cs as [|c cs IH]; intros a Ha; simpl.
  - by rewrite Z.add_0_r.
  - rewrite IH.
    + rewrite to_long_add_l. f_equal. unfold Wording.experience_sum. simpl.
      lia.
    + apply to_long_idem.
Qed.

Lemma experience_sum_fmap (generateCharacter : Z → character) (sh : list Z) :
  (∀ z, Character.get (generateCharacter z) "Experience" = z) →
  Wording.experience_sum (generateCharacter <$> sh) = foldr Z.add 0 sh.
Proof.
  intros Hgen. unfold Wording.experience_sum.
  induction sh as [|z sh IH]; [done|].
  rewrite fmap_cons. cbn [foldr]. by rewrite Hgen, IH.
Qed.

(** X17.  [generateParty] hands out its whole budget.  For a number of
    members that the loop's [unsigned int] counter can reach, with a
    [generateCharacter] that stores its points as Experience and a budget
    that is not negative and fits a [long], the new party has exactly
    [members] members,
    none with negative Experience and, if there is anything to hand out,
    the last with at least one point, and their Experience adds up to the
    budget: the points asked for or, when none are asked for and the game
    has parties, the Experience of the player party added up, so that the
    party generated is worth what the player party is worth. *)
Theorem generateParty_spends_budget (generateCharacter : Z → character)
    (rng : nat → nat) (g : game) (members points : Z) :
  (∀ z, Character.get (generateCharacter z) "Experience" = z) →
  0 < members < 2 ^ 32 →
  let budget :=
    match Game.parties g with
    | p0 :: _ =>
        if points =? 0 then Wording.experience_sum (Party.members p0)
        else points
    | [] => points
    end in
  0 ≤ budget < 2 ^ 63 →
  let p := SimpleParty.generateParty generateCharacter rng g members points in
  Z.of_nat (length (Party.members p)) = members
  ∧ Wording.experience_sum (Party.members p) = budget
  ∧ Forall (λ c, 0 ≤ Character.get c "Experience") (Party.members p)
  ∧ (0 < budget →
     ∃ c, last (Party.members p) = Some c ∧ 0 < Character.get c "Experience")
  ∧ Party.inventory p = [].
Proof.
  intros Hgen Hmembers budget Hbudget p.
  assert (Party.members p
          = generateCharacter
              <$> SimpleParty.shares rng (Z.to_nat members) 0 0 members budget)
    as Hp.
  { unfold p, SimpleParty.generateParty. subst budget. simpl.
    destruct (Game.parties g) as [|p0 ps]; [done|].
    destruct (Z.eqb_spec points 0) as [->|]; [|done].
    rewrite foldl_experience by done. simpl in *.
    rewrite to_long_small; [done|lia]. }
  destruct (shares_split rng members (Z.to_nat members) 0 0 budget)
    as (Hlen & Hall & Hsum); [lia|].
  destruct Hsum as [Hsum Hlast]; [lia|lia|].
  rewrite Hp. split; [rewrite length_fmap, Hlen; lia|].
  split; [by rewrite experience_sum_fmap|].
  split.
  { apply Forall_fmap. eapply Forall_impl; [exact Hall|].
    intros z Hz. simpl. by rewrite Hgen. }
  split; [|done].
  intros Hpos. destruct (Hlast Hpos) as (z & Hz & ?).
  exists (generateCharacter z). rewrite fmap_last, Hz, Hgen. done.
Qed.

End Budget.

Section Selection.

Import Terminal.

Lemma clamp_range (size : nat) (sel : Z) :
  0 ≤ clamp size sel ∧ ((0 < size)%nat → clamp size sel < Z.of_nat size).
Proof.
  unfold clamp.
  destruct (Z.leb_spec (Z.of_nat size) sel);
    [destruct (Z.ltb_spec (Z.of_nat size - 1) 0)|destruct (Z.ltb_spec sel 0)];
    lia.
Qed.

Lemma handle_flags (st : cursor) (i : input) :
  didSelect (handle st i) || didCancel (handle st i) = true ↔
  didSelect st || didCancel st = true
  ∨ i = Command 67 ∨ i = Command 68 ∨ i = Character 10.
Proof.
  destruct st as [sel s c], i as [code|l]; unfold handle; simpl.
  - destruct (Z.eqb_spec code 65) as [->|];
      [split; [by left|by intros [?|[?|[?|?]]]]|].
    destruct (Z.eqb_spec code 66) as [->|];
      [split; [by left|by intros [?|[?|[?|?]]]]|].
    destruct (Z.eqb_spec code 67) as [->|]; [split; [by right; left|done]|].
    destruct (Z.eqb_spec code 68) as [->|].
    { split; [by right; right; left|]. intros _. simpl. apply orb_true_r. }
    simpl. split; [by left|]. intros [?|[?|[?|?]]]; congruence.
  - destruct (Z.eqb_spec l 10) as [->|].
    { split; [by right; right; right|done]. }
    simpl. split; [by left|]. intros [?|[?|[?|?]]]; congruence.
Qed.

Lemma foldl_handle_flags (batch : list input) (st : cursor) :
  didSelect (foldl handle st batch) || didCancel (foldl handle st batch) = true
  ↔ didSelect st || didCancel st = true
    ∨ Exists (λ i, i = Command 67 ∨ i = Command 68 ∨ i = Character 10) batch.
Proof.
  revert st. induction batch as [|i batch IH]; intros st; simpl.
  - split; [by left|]. intros [?|H]; [done|]. by apply Exists_nil in H.
  - rewrite IH, handle_flags, Exists_cons. tauto.
Qed.

Lemma select_loop_ends (size : nat) (reads : list (list input)) (sel : Z) :
  is_Some (select_loop size reads sel) ↔
  Exists (Exists (λ i, i = Command 67 ∨ i = Command 68 ∨ i = Character 10))
         reads.
Proof.
  revert sel. induction reads as [|batch reads IH]; intros sel; simpl.
  - split; [by intros [? ?]|]. intros H. by apply Exists_nil in H.
  - rewrite Exists_cons.
    pose proof (foldl_handle_flags batch (mkCursor sel false false)) as Hflags.
    simpl in Hflags.
    destruct (didSelect _ || didCancel _).
    + split; [|done]. intros _. left.
      destruct (proj1 Hflags eq_refl) as [?|?]; done.
    + rewrite IH. split; [by right|]. intros [H|H]; [|done].
      assert (false = true) by (apply Hflags; by right). done.
Qed.

Lemma select_loop_range (size : nat) (reads : list (list input)) (sel : Z)
    (sel' : Z) (cancel : bool) (rest : list (list input)) :
  select_loop size reads sel = Some (sel', cancel, rest) →
  0 ≤ sel'
  ∧ ((0 < size)%nat → sel' < Z.of_nat size)
  ∧ rest `suffix_of` reads
  ∧ (length rest < length reads)%nat.
Proof.
  revert sel. induction reads as [|batch reads IH]; intros sel; simpl; [done|].
  destruct (didSelect _ || didCancel _).
  - intros [= <- _ <-]. pose proof (clamp_range size
      (selection (foldl handle (mkCursor sel false false) batch))) as [? ?].
    split; [done|]. split; [done|]. split; [by apply suffix_cons_r|lia].
  - intros H. apply IH in H as (? & ? & ? & ?).
    split; [done|]. split; [done|]. split; [by apply suffix_cons_r|lia].
Qed.

Lemma handle_cancel (st : cursor) (i : input) :
  didCancel (handle st i) = true ↔ didCancel st = true ∨ i = Command 68.
Proof.
  destruct st as [sel s c], i as [code|l]; unfold handle; simpl.
  - destruct (Z.eqb_spec code 65) as [->|]; [split; [by left|by intros [?|?]]|].
    destruct (Z.eqb_spec code 66) as [->|]; [split; [by left|by intros [?|?]]|].
    destruct (Z.eqb_spec code 67) as [->|]; [split; [by left|by intros [?|?]]|].
    destruct (Z.eqb_spec code 68) as [->|]; [split; [by right|done]|].
    simpl. split; [by left|]. intros [?|?]; [done|congruence].
  - destruct (l =? 10); simpl; (split; [by left|by intros [?|?]]).
Qed.

Lemma foldl_handle_cancel (batch : list input) (st : cursor) :
  didCancel (foldl handle st batch) = true
  ↔ didCancel st = true ∨ Command 68 ∈ batch.
Proof.
  revert st. induction batch as [|i batch IH]; intros st; simpl.
  - split; [by left|]. intros [?|H]; [done|]. by apply elem_of_nil in H.
  - rewrite IH, handle_cancel, elem_of_cons. split.
    + intros [[?|?]|?]; auto.
    + intros [?|[?|?]]; auto.
Qed.

Lemma foldl_handle_selection (batch : list input) (st : cursor) :
  selection (foldl handle st batch)
  = foldl (λ s i, match i with
                  | Command 65 => s - 1
                  | Command 66 => s + 1
                  | _ => s
                  end) (selection st) batch.
Proof.
  revert st. induction batch as [|i batch IH]; intros st; simpl; [done|].
  rewrite IH. f_equal. destruct st as [sel s c], i as [code|l];
    unfold handle; simpl.
  - destruct (Z.eqb_spec code 65) as [->|]; [done|].
    destruct (Z.eqb_spec code 66) as [->|]; [done|].
    assert (match code with 65 => sel - 1 | 66 => sel + 1 | _ => sel end = sel)
      as ->.
    { destruct code as [|p|p]; try done.
      do 7 (destruct p as [p|p|]; try done). }
    by destruct (code =? 67), (code =? 68).
  - by destruct (l =? 10).
Qed.

(** The loop ends with the first read that selects or cancels: what it
    returns is made of that read and the reads before it. *)
Lemma select_loop_first (size : nat) (reads : list (list input)) (sel : Z)
    (sel' : Z) (cancel : bool) (rest : list (list input)) :
  select_loop size reads sel = Some (sel', cancel, rest) →
  ∃ before batch,
    reads = before ++ batch :: rest
    ∧ Forall (λ b, ¬ Exists (λ i, i = Command 67 ∨ i = Command 68
                                  ∨ i = Character 10) b) before
    ∧ Exists (λ i, i = Command 67 ∨ i = Command 68 ∨ i = Character 10) batch
    ∧ (cancel = true ↔ Command 68 ∈ batch)
    ∧ sel'
      = foldl (λ s b,
                 clamp size
                   (foldl (λ s i, match i with
                                  | Command 65 => s - 1
                                  | Command 66 => s + 1
                                  | _ => s
                                  end) s b))
              sel (before ++ [batch]).
Proof.
  revert sel. induction reads as [|batch reads IH]; intros sel; simpl; [done|].
  pose proof (foldl_handle_flags batch (mkCursor sel false false)) as Hflags.
  pose proof (foldl_handle_cancel batch (mkCursor sel false false)) as Hcancel.
  pose proof (foldl_handle_selection batch (mkCursor sel false false)) as Hsel.
  simpl in Hflags, Hcancel, Hsel.
  destruct (didSelect _ || didCancel _).
  - intros [= <- <- <-]. exists [], batch. split; [done|].
    split; [constructor|].
    split. { destruct (proj1 Hflags eq_refl) as [?|?]; done. }
    split. { rewrite Hcancel. split; [by intros [?|?]|by right]. }
    simpl. by rewrite Hsel.
  - intros H. apply IH in H as (before & batch' & -> & Hbefore & Hbatch & Hc & ->).
    exists (batch :: before), batch'. split; [done|]. split.
    { constructor; [|done]. intros Hex.
      assert (false = true) by (apply Hflags; by right). done. }
    split; [done|]. split; [done|]. simpl. by rewrite Hsel.
Qed.

(** X18.  The selection loop of the terminal's queries ends exactly at the
    first read that brings a select (C or line feed) or a cancel (D); keys
    it does not know are ignored.  It reports a cancel exactly when that
    read holds a D, and leaves the reads after it.  The selection it ends
    with is what the ups and downs typed make of the starting one, one
    step each, brought back into the list after every read; it is an index
    into the list shown, provided the list is not empty. *)
Theorem select_loop_selects (size : nat) (reads : list (list input)) (sel : Z) :
  (is_Some (select_loop size reads sel) ↔
   Exists (Exists (λ i, i = Command 67 ∨ i = Command 68 ∨ i = Character 10))
          reads)
  ∧ ∀ sel' cancel rest,
      select_loop size reads sel = Some (sel', cancel, rest) →
      0 ≤ sel'
      ∧ ((0 < size)%nat → sel' < Z.of_nat size)
      ∧ rest `suffix_of` reads
      ∧ (length rest < length reads)%nat
      ∧ ∃ before batch,
          reads = before ++ batch :: rest
          ∧ Forall (λ b, ¬ Exists (λ i, i = Command 67 ∨ i = Command 68
                                        ∨ i = Character 10) b) before
          ∧ Exists (λ i, i = Command 67 ∨ i = Command 68 ∨ i = Character 10)
                   batch
          ∧ (cancel = true ↔ Command 68 ∈ batch)
          ∧ sel'
            = foldl (λ s b,
                       clamp size
                         (foldl (λ s i, match i with
                                        | Command 65 => s - 1
                                        | Command 66 => s + 1
                                        | _ => s
                                        end) s b))
                    sel (before ++ [batch]).
Proof.
  split; [apply select_loop_ends|]. intros sel' cancel rest Hloop.
  destruct (select_loop_range size reads sel sel' cancel rest Hloop)
    as (H0 & Hlt & Hsuffix & Hlen).
  split; [done|]. split; [done|]. split; [done|]. split; [done|].
  by apply select_loop_first.
Qed.

End Selection.

Section Queries.

Import Terminal.

Lemma append_assoc (a b c : string) : (a +:+ b) +:+ c = a +:+ (b +:+ c).
Proof.
  induction a as [|x a IH]; [done|].
  change (String x ((a +:+ b) +:+ c) = String x (a +:+ (b +:+ c))).
  by rewrite IH.
Qed.

(** [split_slash] cuts at a slash: glued together again around it, the two
    parts are the label. *)
Lemma split_slash_glue (la l r : string) :
  split_slash la = Some (l, r) → la = l +:+ "/" +:+ r.
Proof.
  revert l. induction la as [|a la IH]; intros l; simpl; [done|].
  destruct (Ascii.eqb_spec a
              (Ascii.Ascii true true true true false true false false))
    as [->|_].
  - by intros [= <- <-].
  - destruct (split_slash la) as [[l' r']|]; [|done].
    intros [= <- <-]. change (String a la = String a (l' +:+ "/" +:+ r')).
    by rewrite (IH l').
Qed.

Lemma enter_fst (acc : list string * gmap string (list string)) (la : string) :
  (enter acc la).1
  = let l := match split_slash la with Some (l', _) => l' | None => la end in
    if bool_decide (l ∈ acc.1) then acc.1 else acc.1 ++ [l].
Proof. unfold enter. by destruct (split_slash la) as [[? ?]|]. Qed.

Lemma enter_snd (acc : list string * gmap string (list string)) (la : string) :
  (enter acc la).2
  = match split_slash la with
    | Some (l, rest) => <[l := default [] (acc.2 !! l) ++ [rest]]> acc.2
    | None => acc.2
    end.
Proof. unfold enter. by destruct (split_slash la) as [[? ?]|]. Qed.

(** The groups shown: the part before the slash of each label, or the
    whole label if it has no slash. *)
Lemma group_list (pList : list string) (l : string) :
  l ∈ (group pList).1 ↔
  ∃ la, la ∈ pList
        ∧ match split_slash la with Some (l', _) => l' | None => la end = l.
Proof.
  unfold group. induction pList as [|la pList IH] using rev_ind.
  - simpl. split; [by intros ?%elem_of_nil|].
    by intros (la & ?%elem_of_nil & _).
  - rewrite foldl_snoc, enter_fst.
    set (acc := foldl enter ([], ∅) pList) in *.
    set (l0 := match split_slash la with Some (l', _) => l' | None => la end).
    cbv zeta.
    assert (l ∈ (if bool_decide (l0 ∈ acc.1) then acc.1 else acc.1 ++ [l0])
            ↔ l ∈ acc.1 ∨ l = l0) as ->.
    { case_bool_decide as Hin.
      - split; [by left|]. intros [?| ->]; done.
      - rewrite elem_of_app, list_elem_of_singleton. done. }
    rewrite IH. split.
    + intros [(la' & Hin & Hl)| ->].
      * exists la'. split; [|done]. apply elem_of_app. by left.
      * exists la. split; [|done]. apply elem_of_app. right.
        by apply list_elem_of_singleton.
    + intros (la' & Hin & Hl). apply elem_of_app in Hin as [Hin|Hin].
      * left. by exists la'.
      * apply list_elem_of_singleton in Hin as ->. by right.
Qed.

(** The submenu of a group: the parts after the slash of the labels of the
    group. *)
Lemma group_map (pList : list string) (l r : string) :
  r ∈ default [] ((group pList).2 !! l) ↔
  ∃ la, la ∈ pList ∧ split_slash la = Some (l, r).
Proof.
  unfold group. induction pList as [|la pList IH] using rev_ind.
  - simpl. rewrite lookup_empty. simpl. split; [by intros ?%elem_of_nil|].
    by intros (la & ?%elem_of_nil & _).
  - rewrite foldl_snoc, enter_snd.
    set (acc := foldl enter ([], ∅) pList) in *.
    destruct (split_slash la) as [[l1 r1]|] eqn:Hla; simpl.
    + destruct (decide (l1 = l)) as [->|Hne].
      * rewrite lookup_insert_eq. simpl. rewrite elem_of_app, IH,
          list_elem_of_singleton. split.
        -- intros [(la' & Hin & Hl)| ->].
           ++ exists la'. split; [|done]. apply elem_of_app. by left.
           ++ exists la. split; [|done]. apply elem_of_app. right.
              by apply list_elem_of_singleton.
        -- intros (la' & Hin & Hl). apply elem_of_app in Hin as [Hin|Hin].
           ++ left. by exists la'.
           ++ apply list_elem_of_singleton in Hin as ->. right. congruence.
      * rewrite lookup_insert_ne by done. rewrite IH. split.
        -- intros (la' & Hin & Hl). exists la'. split; [|done].
           apply elem_of_app. by left.
        -- intros (la' & Hin & Hl). apply elem_of_app in Hin as [Hin|Hin].
           ++ by exists la'.
           ++ apply list_elem_of_singleton in Hin as ->. congruence.
    + rewrite IH. split.
      * intros (la' & Hin & Hl). exists la'. split; [|done].
        apply elem_of_app. by left.
      * intros (la' & Hin & Hl). apply elem_of_app in Hin as [Hin|Hin].
        -- by exists la'.
        -- apply list_elem_of_singleton in Hin as ->. congruence.
Qed.

Lemma group_NoDup (pList : list string) : NoDup (group pList).1.
Proof.
  unfold group. induction pList as [|la pList IH] using rev_ind.
  - constructor.
  - rewrite foldl_snoc, enter_fst. cbv zeta. case_bool_decide as Hin; [done|].
    apply NoDup_app. split; [done|]. split; [|apply NoDup_singleton].
    intros l Hl ->%list_elem_of_singleton. done.
Qed.

(** X19.  The menu the terminal draws from the labels: every group, that
    is the part of a label before its first slash or the whole label
    without one, is listed exactly once, and the submenu of a group holds
    exactly what follows the first slash in the labels of that group. *)
Theorem group_lists_each_group_once (pList : list string) :
  NoDup (group pList).1
  ∧ (∀ l, l ∈ (group pList).1 ↔
       ∃ la, la ∈ pList
             ∧ match split_slash la with Some (l', _) => l' | None => la end
               = l)
  ∧ (∀ l r, r ∈ default [] ((group pList).2 !! l) ↔
       ∃ la, la ∈ pList ∧ split_slash la = Some (l, r)).
Proof.
  split; [apply group_NoDup|]. split; [apply group_list|]. intros l r.
  apply group_map.
Qed.

Lemma group_nonempty (pList : list string) :
  pList ≠ [] → (0 < length (group pList).1)%nat.
Proof.
  destruct pList as [|la pList]; [done|]. intros _.
  assert (match split_slash la with Some (l', _) => l' | None => la end
          ∈ (group (la :: pList)).1) as Hin.
  { apply group_list. exists la. split; [by left|done]. }
  destruct (group (la :: pList)).1; [by apply elem_of_nil in Hin|simpl; lia].
Qed.

Lemma query_fuel_answers (fuel : nat) (reads : list (list input))
    (pList : list string) (carry s : string) (rest : list (list input)) :
  query_fuel fuel reads pList carry = Answered s rest →
  (s = "Cancel" ∨ ∃ la, la ∈ pList ∧ s = carry +:+ la)
  ∧ (length rest < length reads)%nat.
Proof.
  revert reads pList carry s rest.
  induction fuel as [|fuel IH]; intros reads pList carry s rest; [done|].
  simpl. destruct (group pList) as [list map] eqn:Hgroup.
  destruct (select_loop (length list) reads 0) as [[[sel cancel] reads']|]
    eqn:Hsel; [|done].
  apply select_loop_range in Hsel as (_ & _ & _ & Hlen).
  destruct cancel.
  { intros [= <- <-]. split; [by left|done]. }
  destruct (list !! Z.to_nat sel) as [sele|] eqn:Hsele; [|done].
  destruct (default [] (map !! sele)) as [|x sub] eqn:Hsub.
  - intros [= <- <-]. split; [|done]. right.
    assert (sele ∈ (group pList).1) as Hin
      by (rewrite Hgroup; by eapply list_elem_of_lookup_2).
    apply group_list in Hin as (la & Hla & Hl). exists la. split; [done|].
    destruct (split_slash la) as [[l r]|] eqn:Hsplit; [|by subst].
    subst l. assert (r ∈ default [] ((group pList).2 !! sele)) as Hr
      by (apply group_map; eauto).
    rewrite Hgroup in Hr. simpl in Hr. rewrite Hsub in Hr.
    by apply elem_of_nil in Hr.
  - destruct (query_fuel fuel reads' (x :: sub) (carry +:+ sele +:+ "/"))
      as [s1 reads''| |] eqn:Hinner; [|done|done].
    apply IH in Hinner as [Hs1 Hlen1].
    destruct (String.eqb_spec s1 "Cancel") as [->|Hne].
    + intros H. apply IH in H as [Hs Hlen2]. split; [done|lia].
    + intros [= <- <-]. split; [|lia]. right.
      destruct Hs1 as [?|(la' & Hla' & ->)]; [done|].
      rewrite <- Hsub in Hla'.
      assert (la' ∈ default [] ((group pList).2 !! sele)) as Hin
        by (by rewrite Hgroup).
      apply group_map in Hin as (la & Hla & Hsplit). exists la. split; [done|].
      rewrite (split_slash_glue _ _ _ Hsplit). by rewrite !append_assoc.
Qed.

Lemma query_fuel_in_bounds (fuel : nat) (reads : list (list input))
    (pList : list string) (carry : string) :
  pList ≠ [] → query_fuel fuel reads pList carry ≠ OutOfBounds.
Proof.
  revert reads pList carry.
  induction fuel as [|fuel IH]; intros reads pList carry Hne; [done|].
  simpl. pose proof (group_nonempty pList Hne) as Hpos.
  destruct (group pList) as [list map] eqn:Hgroup. simpl in Hpos.
  destruct (select_loop (length list) reads 0) as [[[sel cancel] reads']|]
    eqn:Hsel; [|done].
  apply select_loop_range in Hsel as (H0 & Hlt & _ & _).
  destruct cancel; [done|].
  destruct (lookup_lt_is_Some_2 list (Z.to_nat sel)) as [sele ->];
    [specialize (Hlt Hpos); lia|].
  destruct (default [] (map !! sele)) as [|x sub]; [done|].
  pose proof (IH reads' (x :: sub) (carry +:+ sele +:+ "/")) as Hinner.
  destruct (query_fuel fuel reads' (x :: sub) (carry +:+ sele +:+ "/"))
    as [s1 reads''| |]; [|done|by apply Hinner].
  destruct (String.eqb s1 "Cancel"); [by apply IH|done].
Qed.

(** More iterations than there are reads are never used. *)
Lemma query_fuel_enough (fuel fuel' : nat) (reads : list (list input))
    (pList : list string) (carry : string) :
  (length reads < fuel)%nat → (length reads < fuel')%nat →
  query_fuel fuel reads pList carry = query_fuel fuel' reads pList carry.
Proof.
  revert fuel' reads pList carry.
  induction fuel as [|fuel IH]; intros fuel' reads pList carry Hf Hf'; [lia|].
  destruct fuel' as [|fuel']; [lia|]. simpl.
  destruct (group pList) as [list map].
  destruct (select_loop (length list) reads 0) as [[[sel cancel] reads']|]
    eqn:Hsel; [|done].
  apply select_loop_range in Hsel as (_ & _ & _ & Hlen).
  destruct cancel; [done|].
  destruct (list !! Z.to_nat sel) as [sele|]; [|done].
  destruct (default [] (map !! sele)) as [|x sub]; [done|].
  rewrite (IH fuel' reads') by lia.
  destruct (query_fuel fuel' reads' (x :: sub) (carry +:+ sele +:+ "/"))
    as [s1 reads''| |] eqn:Hinner; [|done|done].
  apply query_fuel_answers in Hinner as [_ Hlen1].
  destruct (String.eqb s1 "Cancel"); [|done]. apply IH; lia.
Qed.

(** X20.  The terminal's menu answers with what it was given.  For a
    character the player controls, whatever is typed, an answer of the
    label query is either "Cancel" or [carry] followed by one of the labels
    offered, also when the label was picked from a submenu; it uses up at
    least one read; and with at least one label on offer the query never
    indexes past the end of the list it shows. *)
Theorem query_answers_offered (reads : list (list input)) (pList : list string)
    (carry : string) :
  (pList ≠ [] → query reads pList carry ≠ OutOfBounds)
  ∧ ∀ s rest,
      query reads pList carry = Answered s rest →
      (s = "Cancel" ∨ ∃ la, la ∈ pList ∧ s = carry +:+ la)
      ∧ (length rest < length reads)%nat.
Proof.
  split.
  - apply query_fuel_in_bounds.
  - intros s rest. apply query_fuel_answers.
Qed.

(** X21.  The terminal's target query picks one of the candidates.  For a
    character the player controls and any way of sorting that only
    rearranges, a selection is always a single character that was among
    the candidates; and with at least one candidate the query never
    indexes past the end of the list. *)
Theorem query_target_picks_candidate (sort : list ref → list ref)
    (reads : list (list input)) (candidates : list ref) :
  (∀ l, sort l ≡ₚ l) →
  (candidates ≠ [] → query_target sort reads candidates ≠ OutOfBounds)
  ∧ ∀ targets rest,
      query_target sort reads candidates = Answered (Some targets) rest →
      ∃ c, targets = [c] ∧ c ∈ candidates.
Proof.
  intros Hsort. unfold query_target.
  destruct (Nat.eqb_spec (length candidates) 1) as [Hone|Hmore].
  { split; [done|]. intros targets rest [= <- <-].
    destruct candidates as [|c [|? ?]]; try done. exists c.
    split; [done|]. by left. }
  pose proof (Hsort candidates) as Hperm.
  destruct (sort candidates) as [|c0 sorted].
  { split; [|done]. intros Hne _. apply Permutation_nil_l in Hperm. done. }
  cbv beta iota.
  assert (0 < length (c0 :: sorted))%nat as Hpos by (simpl; lia).
  set (l := c0 :: sorted) in *.
  destruct (select_loop (length l) reads 0) as [[[sel cancel] reads']|] eqn:Hsel;
    [|done].
  apply select_loop_range in Hsel as (H0 & Hlt & _ & _).
  destruct cancel; [done|].
  destruct (lookup_lt_is_Some_2 l (Z.to_nat sel)) as [c Hc];
    [specialize (Hlt Hpos); lia|].
  rewrite Hc. split; [done|]. intros targets rest [= <- <-]. exists c.
  split; [done|]. rewrite <- Hperm. by eapply list_elem_of_lookup_2.
Qed.

End Queries.

Section Screen.

Import Game.

(** X22.  On the screen every character has a line of its own.  In a game
    of at most two parties whose characters all fit on the terminal,
    [getLine] gives different lines to different characters of the match,
    so that sorting the candidates by line puts them in one definite order
    and the selector marks one character at a time. *)
Theorem getLine_separates (height : nat) (g : game) (r r' : ref) :
  (length (parties g) ≤ 2)%nat →
  (length (all_characters g) ≤ height)%nat →
  Z.of_nat height < 2 ^ 64 →
  is_Some (deref g r) →
  is_Some (deref g r') →
  r ≠ r' →
  Terminal.getLine height g r ≠ Terminal.getLine height g r'.
Proof.
  intros Hparties Hfit Hheight Hr Hr' Hne Hline. apply Hne. revert Hline.
  clear Hne. unfold Terminal.getLine.
  rewrite (partyOf_member g r Hr), (positionOf_member g r Hr),
    (partyOf_member g r' Hr'), (positionOf_member g r' Hr').
  apply deref_is_Some in Hr as (pa & Hpa & Hlt).
  apply deref_is_Some in Hr' as (pa' & Hpa' & Hlt').
  unfold all_characters in Hfit. rewrite Hpa, Hpa'.
  destruct r as [pi ci], r' as [pi' ci']. simpl in *.
  destruct (parties g) as [|p0 [|p1 [|p2 ps]]]; simpl in *; [done| | |lia].
  - destruct pi as [|pi]; [|done]. destruct pi' as [|pi']; [|done].
    simpl in *. injection Hpa as <-. injection Hpa' as <-.
    unfold pointers in Hfit.
    rewrite length_app, length_fmap, length_seq in Hfit. simpl in Hfit.
    rewrite (Z.mod_small (_ - _)) by lia. rewrite !Z.mod_small by lia.
    intros ?. f_equal. lia.
  - unfold pointers in Hfit.
    rewrite !length_app, !length_fmap, !length_seq in Hfit. simpl in Hfit.
    destruct pi as [|[|pi]]; [| |done]; (destruct pi' as [|[|pi']]; [| |done]);
      simpl in *; injection Hpa as <-; injection Hpa' as <-;
      rewrite ?(Z.mod_small (_ - _)) by lia; rewrite !Z.mod_small by lia;
      intros ?; first [f_equal; lia | lia].
Qed.

(** X23.  The terminal and the menu fit together.  When the terminal's
    label query is shown the labels the menu puts together for a character
    of the match, then whatever is typed, the answer is one the menu
    understands: the pass it triggers cannot end in the error of an
    unknown action or of a missing character. *)
Theorem terminal_answer_is_understood (choose : chooser) (g : game)
    (target : ref) (am : actionMap) (allowCharacterActions : bool)
    (res : string) (cha : character) (reads rest : list (list Terminal.input))
    (s : string) :
  deref g target = Some cha →
  Terminal.query reads
    ((if allowCharacterActions then visibleActions cha else []) ++ am.*1) ""
  = Terminal.Answered s rest →
  ∀ g' e told,
    menu_pass choose g target am res s = (Return g' (inl e), told) →
    e = InsufficientResource.
Proof.
  intros Hcha Hquery g' e told.
  apply query_fuel_answers in Hquery as [[->|(la & Hla & ->)] _].
  - done.
  - change ("" +:+ la) with la. by eapply menu_pass_understood.
Qed.

End Screen.

Section Trials.

Import Game Fixture.


Lemma menu_fight_opens_match_witness :
  willExit camp = false
  ∧ nextCharacter draws camp = Some (0, 0)%nat
  ∧ (Base.doMenu (Simple.actions Sample.lone_cid) first_candidate draws
       ["Fight"] camp).1
    = Some (Game.mk (parties camp ++ [Sample.lone_cid (parties camp)])
              (<["parties" := 2]> (attribute camp)) false,
            inr ("OFF WITH THEIR HEADS!" +:+ newline))
  ∧ state_of
      (Game.mk (parties camp ++ [Sample.lone_cid (parties camp)])
         (<["parties" := 2]> (attribute camp)) false) ≠ menu.
Proof.
  assert (nextCharacter draws camp = Some (0, 0)%nat) as Hnext
    by (vm_compute; reflexivity).
  split; [reflexivity|]. split; [exact Hnext|].
  exact (menu_fight_opens_match Sample.lone_cid first_candidate draws [] camp
           (Party.mk [fighter "Ann" 55 4 7; fighter "Bob" 30 1 3] [])
           (0, 0)%nat eq_refl eq_refl Hnext).
Defined.

Lemma offered_label_is_understood_witness :
  deref duel (0, 1)%nat = Some (fighter "Bob" 30 1 3)
  ∧ match (menu_pass first_candidate duel (0, 1)%nat
             (actions duel (0, 1)%nat) "" "Skill/Heal").1 with
    | Return _ (inl e) => e = InsufficientResource
    | _ => False
    end
  ∧ ∀ g' e told,
      menu_pass first_candidate duel (0, 1)%nat (actions duel (0, 1)%nat) ""
        "Skill/Heal"
      = (Return g' (inl e), told) →
      e = InsufficientResource.
Proof.
  split; [reflexivity|]. split; [vm_compute; reflexivity|].
  apply (offered_label_is_understood first_candidate duel (0, 1)%nat
           (actions duel (0, 1)%nat) true "" "Skill/Heal"
           (fighter "Bob" 30 1 3) eq_refl).
  vm_compute. set_solver.
Defined.

Lemma menu_noise_is_skipped_witness :
  useAI camp (0, 0)%nat = false
  ∧ (menu_loop first_candidate (["Cancel"; "Inspect"; "Quit/No"] ++ ["Quit/Yes"])
       camp (0, 0)%nat (Simple.actions Sample.lone_cid camp (0, 0)%nat) [] "").1
    = (menu_loop first_candidate ["Quit/Yes"] camp (0, 0)%nat
         (Simple.actions Sample.lone_cid camp (0, 0)%nat) [] "").1.
Proof.
  split; [reflexivity|].
  apply menu_noise_is_skipped; [reflexivity|].
  repeat first [apply Forall_nil_2 | apply Forall_cons_2; [auto|]].
Defined.

Lemma run_returns_in_defeat_or_exit_witness :
  Flow.run Flow.base_logic first_candidate 1 [] wiped []
  = Flow.Returned true wiped ["The player party was defeated!"]
  ∧ true = true
  ∧ [] `prefix_of` ["The player party was defeated!"]
  ∧ (state_of wiped = exit
     ∨ state_of wiped = defeat
       ∧ last ["The player party was defeated!"]
         = Some "The player party was defeated!").
Proof.
  assert (state_of wiped = defeat) as Hst by (vm_compute; reflexivity).
  assert (Flow.run Flow.base_logic first_candidate 1 [] wiped []
          = Flow.Returned true wiped ["The player party was defeated!"]) as Hrun
    by (simpl; rewrite Hst; reflexivity).
  split; [exact Hrun|].
  exact (run_returns_in_defeat_or_exit Flow.base_logic first_candidate 1 []
           wiped [] true wiped ["The player party was defeated!"] Hrun).
Defined.

Lemma run_quit_witness :
  state_of duel = combat
  ∧ nextCharacter draws duel = Some (0, 0)%nat
  ∧ useAI duel (0, 0)%nat = false
  ∧ Flow.run (Flow.simple_logic Sample.lone_cid) first_candidate 2
      [Flow.mkTurn draws (["Cancel"; "Inspect"] ++ ["Quit/Yes"; "Attack"])]
      duel []
    = Flow.Returned true (Game.mk (parties duel) (attribute duel) true)
        ([] ++ ["Quit."]).
Proof.
  assert (state_of duel = combat) as Hst by (vm_compute; reflexivity).
  assert (nextCharacter draws duel = Some (0, 0)%nat) as Hnext
    by (vm_compute; reflexivity).
  split; [exact Hst|]. split; [exact Hnext|]. split; [reflexivity|].
  apply (run_quit Sample.lone_cid first_candidate 0 draws
           ["Cancel"; "Inspect"] ["Attack"] [] duel [] (0, 0)%nat);
    [by right|exact Hnext|reflexivity|].
  repeat first [apply Forall_nil_2 | apply Forall_cons_2; [auto|]].
Defined.

Lemma run_victory_leaves_player_party_witness :
  state_of melee = victory
  ∧ Flow.run (Flow.simple_logic Sample.lone_cid) first_candidate (2 + 1) []
      melee []
    = Flow.run (Flow.simple_logic Sample.lone_cid) first_candidate 1 []
        (with_parties [Party.mk [fighter "Ann" 55 4 7] []] melee)
        ([] ++ replicate 2 "The player party was victorious!")
  ∧ state_of (with_parties [Party.mk [fighter "Ann" 55 4 7] []] melee) = menu.
Proof.
  assert (state_of melee = victory) as Hst by (vm_compute; reflexivity).
  split; [exact Hst|].
  exact (run_victory_leaves_player_party (Flow.simple_logic Sample.lone_cid)
           first_candidate 1 [] melee [] (Party.mk [fighter "Ann" 55 4 7] [])
           [Party.mk [fighter "Bea" 40 0 2] [];
            Party.mk [fighter "Cid" 0 0 5] [potion]]
           eq_refl Hst eq_refl).
Defined.

Lemma roll_within_dice_witness :
  6 * 3 < 2 ^ 31
  ∧ (Simple.roll draws 0 3).2 = 3%nat
  ∧ 3 ≤ (Simple.roll draws 0 3).1 ≤ 18.
Proof.
  assert (6 * 3 < 2 ^ 31) as Hfit by reflexivity.
  split; [exact Hfit|]. exact (roll_within_dice draws 0 3 Hfit).
Defined.

Lemma getPoints_increasing_witness :
  - 2 ^ 63 ≤ 10 * (-1) - 5
  ∧ 10 * 0 + 5 < 2 ^ 63
  ∧ -1 < 0
  ∧ Simple.getPoints (-1) < Simple.getPoints 0.
Proof.
  assert (- 2 ^ 63 ≤ 10 * (-1) - 5) as Ha by discriminate.
  assert (10 * 0 + 5 < 2 ^ 63) as Hb by reflexivity.
  assert (-1 < 0) as Hab by reflexivity.
  split; [exact Ha|]. split; [exact Hb|]. split; [exact Hab|].
  exact (getPoints_increasing (-1) 0 Ha Hb Hab).
Defined.

Lemma character_starts_full_witness :
  Character.get (recruit "Ann") "HP/Total" = 55
  ∧ Character.get (recruit "Ann") "MP/Total" = 100
  ∧ Character.get (recruit "Ann") "HP/Current" = 55
  ∧ Character.alive (recruit "Ann") = true
  ∧ unhealthy (recruit "Ann") = false.
Proof.
  destruct (character_starts_full draws (Object.mk "" (<["Level" := 4]> ∅) ∅)
              "Ann")
    as (Hhp & Hmp & Hcur & _ & _ & _ & _ & Halive & _ & Hunhealthy).
  { intros k _. reflexivity. }
  { vm_compute. split; [discriminate|reflexivity]. }
  split; [exact Hhp|]. split; [exact Hmp|].
  split; [exact (eq_trans Hcur Hhp)|].
  split; [apply Halive; vm_compute; discriminate|exact Hunhealthy].
Defined.

Lemma generateParty_spends_budget_witness :
  (∀ z, Character.get (Sample.novice z) "Experience" = z)
  ∧ Wording.experience_sum (Party.members
      (SimpleParty.generateParty Sample.novice draws duel 3 0)) = 10
  ∧ length (Party.members
      (SimpleParty.generateParty Sample.novice draws duel 3 0)) = 3%nat.
Proof.
  assert (∀ z, Character.get (Sample.novice z) "Experience" = z) as Hgen
    by (intros z; reflexivity).
  split; [exact Hgen|].
  destruct (generateParty_spends_budget Sample.novice draws duel 3 0 Hgen)
    as (Hlen & Hsum & _);
    [lia|vm_compute; split; [discriminate|reflexivity]|].
  split; [rewrite Hsum; vm_compute; reflexivity|lia].
Defined.

Lemma by_line_Permutation (height : nat) (g : game) (l : list ref) :
  Sample.by_line height g l ≡ₚ l.
Proof.
  unfold Sample.by_line. induction l as [|x l IH]; [done|]. simpl.
  rewrite <- IH at 2. generalize (foldr (Sample.insert_by (Terminal.getLine height g)) [] l).
  intros k. induction k as [|y k IHk]; simpl; [done|].
  destruct (_ <? _); [done|]. rewrite IHk. apply Permutation_swap.
Qed.

Lemma query_target_picks_candidate_witness :
  Terminal.query_target (Sample.by_line 24 duel) [[Sample.down]; [Sample.right]]
    [(0, 0)%nat; (0, 1)%nat; (1, 0)%nat]
  = Terminal.Answered (Some [(0, 0)%nat]) []
  ∧ ∃ c, [(0, 0)%nat] = [c] ∧ c ∈ [(0, 0)%nat; (0, 1)%nat; (1, 0)%nat].
Proof.
  assert (Terminal.query_target (Sample.by_line 24 duel)
            [[Sample.down]; [Sample.right]] [(0, 0)%nat; (0, 1)%nat; (1, 0)%nat]
          = Terminal.Answered (Some [(0, 0)%nat]) []) as Hquery
    by (vm_compute; reflexivity).
  split; [exact Hquery|].
  destruct (query_target_picks_candidate (Sample.by_line 24 duel)
              [[Sample.down]; [Sample.right]]
              [(0, 0)%nat; (0, 1)%nat; (1, 0)%nat]
              (by_line_Permutation 24 duel)) as [_ Hpick].
  exact (Hpick [(0, 0)%nat] [] Hquery).
Defined.

Lemma getLine_separates_witness :
  (0, 0)%nat ≠ (1, 0)%nat
  ∧ Terminal.getLine 24 duel (0, 0)%nat ≠ Terminal.getLine 24 duel (1, 0)%nat.
Proof.
  assert ((0, 0)%nat ≠ (1, 0)%nat) as Hne by discriminate.
  split; [exact Hne|].
  apply getLine_separates; [vm_compute; lia|vm_compute; lia|reflexivity| | |exact Hne].
  - by eexists.
  - by eexists.
Defined.

Lemma terminal_answer_is_understood_witness :
  Terminal.query [[Sample.down; Sample.right]; [Sample.line_feed]]
    (visibleActions (fighter "Bob" 30 1 3) ++ (actions duel (0, 1)%nat).*1) ""
  = Terminal.Answered "Skill/Heal" []
  ∧ ∀ g' e told,
      menu_pass first_candidate duel (0, 1)%nat (actions duel (0, 1)%nat) ""
        "Skill/Heal"
      = (Return g' (inl e), told) →
      e = InsufficientResource.
Proof.
  assert (Terminal.query [[Sample.down; Sample.right]; [Sample.line_feed]]
            (visibleActions (fighter "Bob" 30 1 3)
             ++ (actions duel (0, 1)%nat).*1) ""
          = Terminal.Answered "Skill/Heal" []) as Hquery
    by (vm_compute; reflexivity).
  split; [exact Hquery|].
  exact (terminal_answer_is_understood first_candidate duel (0, 1)%nat
           (actions duel (0, 1)%nat) true "" (fighter "Bob" 30 1 3)
           [[Sample.down; Sample.right]; [Sample.line_feed]] [] "Skill/Heal"
           eq_refl Hquery).
Defined.

End Trials.
